(** * SentimentEdge dashboard: reconciliation of polled and pushed data

    A shallow embedding of the client-side logic of the dashboard
    (services/frontend/src): the derivations of [PnLChart.tsx] and
    [App.tsx], the message handler of [App.tsx] and the reconnecting
    push-channel hook [useWebSocket].

    Conventions of the embedding.
    - A JavaScript [number] is an exact integer [Z] (amounts can be read
      in minor units); NaN and rounding are outside the model.
    - A timestamp is the instant [new Date(s).getTime()] of its ISO
      string, in milliseconds, as a [Z].
    - Values that arrive over the wire without any check (the decoded
      push envelope and its payload, the performance snapshot) are
      untyped [jsvalue]s, as they are at run time. *)

From stdpp Require Import base list strings sorting.
From Stdlib Require Import ZArith Lia.

#[local] Set Warnings "-register-all".

Local Open Scope string_scope.
Local Open Scope list_scope.
Local Open Scope Z_scope.

(** ** Run-time values *)

Inductive jsvalue : Type :=
| JUndefined
| JNull
| JBool (b : bool)
| JNum (n : Z)
| JStr (s : string)
| JArr (xs : list jsvalue)
| JObj (props : list (string * jsvalue)).

Inductive exn : Type :=
| SyntaxError (msg : string)
| TypeError (msg : string).

(** Own property [k] of an object literal, [undefined] when there is none. *)
Fixpoint lookup_prop (k : string) (props : list (string * jsvalue)) : jsvalue :=
  match props with
  | [] => JUndefined
  | (k', v) :: rest => if String.eqb k k' then v else lookup_prop k rest
  end.

(** [v.k] for the two keys the client reads, [type] and [data]: reading a
    property of [null] or [undefined] throws, a primitive or an array has
    no such property. *)
Definition get_prop (v : jsvalue) (k : string) : exn + jsvalue :=
  match v with
  | JUndefined => inl (TypeError "Cannot read properties of undefined")
  | JNull => inl (TypeError "Cannot read properties of null")
  | JObj props => inr (lookup_prop k props)
  | _ => inr JUndefined
  end.

(** ToBoolean. *)
Definition truthy (v : jsvalue) : bool :=
  match v with
  | JUndefined | JNull => false
  | JBool b => b
  | JNum n => negb (n =? 0)
  | JStr s => negb (String.eqb s "")
  | JArr _ | JObj _ => true
  end.

(** [a || b]. *)
Definition js_or (a b : jsvalue) : jsvalue := if truthy a then a else b.

(** [v === 'lit'] against a string literal. *)
Definition is_str (v : jsvalue) (lit : string) : bool :=
  match v with
  | JStr s => String.eqb s lit
  | _ => false
  end.

(** [xs.slice(0, n)]. *)
Definition slice0 {A : Type} (n : nat) (xs : list A) : list A := take n xs.

(** ** Wire types (types.ts) *)

Inductive SignalType : Type := BUY | SELL.

Module Position.
Record t : Type := mk {
  id : Z;
  ticker : string;
  quantity : Z;
  entry_price : Z;
  current_price : Z;
  unrealized_pnl : Z;
  unrealized_pnl_pct : Z;
  opened_at : Z
}.
End Position.

(** [realized_pnl?: number]: the key may be missing ([undefined]); the
    backend column is nullable, so JSON [null] also arrives (TradesTable
    tests for both). *)
Inductive optnum : Type :=
| Absent
| Null
| Num (n : Z).

Module Trade.
Record t : Type := mk {
  id : Z;
  ticker : string;
  signal_type : SignalType;
  quantity : Z;
  price : Z;
  timestamp : Z;
  realized_pnl : optnum;
  position_id : option Z
}.
End Trade.

(** ** Cumulative P&L (PnLChart.tsx) *)

(** A chart point; [displayTime] is a rendering of [timestamp] by the date
    library and carries no further information. *)
Record ChartDataPoint : Type := mkPoint {
  timestamp : Z;
  cumulative_pnl : Z
}.

(** [t.realized_pnl !== undefined] *)
Definition pnl_not_undefined (t : Trade.t) : bool :=
  match Trade.realized_pnl t with
  | Absent => false
  | Null | Num _ => true
  end.

(** [trade.realized_pnl || 0] *)
Definition pnl_or_zero (t : Trade.t) : Z :=
  match Trade.realized_pnl t with
  | Num n => n
  | Absent | Null => 0
  end.

(** The comparator handed to [sort]. *)
Definition byTimestamp (a b : Trade.t) : Z :=
  Trade.timestamp a - Trade.timestamp b.

(** [Array.prototype.sort] is stable: [x], which stood before every element
    of [sorted], is placed before the first element it does not exceed. *)
Fixpoint sort_insert {A : Type} (cmp : A -> A -> Z) (x : A) (sorted : list A) : list A :=
  match sorted with
  | [] => [x]
  | y :: rest =>
      if cmp x y <=? 0 then x :: y :: rest else y :: sort_insert cmp x rest
  end.

Definition js_sort {A : Type} (cmp : A -> A -> Z) (xs : list A) : list A :=
  foldr (sort_insert cmp) [] xs.

(** The reducer: read the last point, push the next one. *)
Definition pushPoint (acc : list ChartDataPoint) (trade : Trade.t) : list ChartDataPoint :=
  let prevPnL := match last acc with
                 | Some p => cumulative_pnl p
                 | None => 0
                 end in
  let newPnL := prevPnL + pnl_or_zero trade in
  acc ++ [ {| timestamp := Trade.timestamp trade; cumulative_pnl := newPnL |} ].

Definition chartData (trades : list Trade.t) : list ChartDataPoint :=
  foldl pushPoint [] (js_sort byTimestamp (List.filter pnl_not_undefined trades)).

(** What the specification counts: trades that carry a realized P&L. *)
Definition carries_pnl (t : Trade.t) : bool :=
  match Trade.realized_pnl t with
  | Num _ => true
  | Absent | Null => false
  end.

(** The running total the series ends on ([0] for an empty series, the
    reducer's own convention for "no previous point"). *)
Definition finalTotal (series : list ChartDataPoint) : Z :=
  match last series with
  | Some p => cumulative_pnl p
  | None => 0
  end.

Definition sumZ (xs : list Z) : Z := foldr Z.add 0 xs.

(** ** Active tickers (App.tsx) *)

(** [new Set(iterable)] adds the elements one by one; a [Set] iterates in
    insertion order and ignores an element it already holds. *)
Definition set_add (acc : list string) (x : string) : list string :=
  if bool_decide (x ∈ acc) then acc else acc ++ [x].

(** [Array.from(new Set(xs))] *)
Definition arrayFromSet (xs : list string) : list string := foldl set_add [] xs.

Definition defaultTickers : list string := ["AAPL"; "TSLA"; "GME"].

Definition tickerCandidates (positions : list Position.t) (trades : list Trade.t) : list string :=
  map Position.ticker positions
    ++ map Trade.ticker (slice0 10 trades)
    ++ defaultTickers.

Definition uniqueTickers (positions : list Position.t) (trades : list Trade.t) : list string :=
  slice0 10 (arrayFromSet (tickerCandidates positions trades)).

(** [y] is not among [seen]. *)
Definition notIn (seen : list string) (y : string) : bool :=
  negb (bool_decide (y ∈ seen)).

(** Reference reading of "de-duplicated, insertion order preserved": keep
    the first occurrence of every element. *)
Fixpoint keepFirst (xs : list string) : list string :=
  match xs with
  | [] => []
  | x :: rest => x :: List.filter (fun y => negb (String.eqb y x)) (keepFirst rest)
  end.

(** ** The world the client runs in *)

(** State of the [App] component: the two [useState] cells and the data
    of the three queries ([positions] and [trades] default to []; the
    performance snapshot is [undefined] until a fetch has succeeded). *)
Record AppState : Type := mkApp {
  liveSignals : list jsvalue;
  livePerformance : jsvalue;
  positions : list Position.t;
  trades : list Trade.t;
  performance : jsvalue
}.

(** State of the [useWebSocket] hook: two [useState] cells, three refs. *)
Record HookState : Type := mkHook {
  isConnected : bool;
  error : option string;
  wsRef : option nat;
  reconnectTimeoutRef : option nat;
  reconnectAttemptsRef : Z
}.

Inductive readyState : Type := CONNECTING | OPEN | CLOSING | CLOSED.

Inductive timerStatus : Type := Pending | Fired | Cleared.

Record timer : Type := mkTimer {
  delay : Z;
  status : timerStatus
}.

Inductive logEntry : Type :=
| ConsoleLog (msg : string)
| ConsoleError (msg : string).

(** Sockets and timers are named by their index in the lists of those ever
    created (a timer handle of the platform is never 0, so a handle held in
    the ref is truthy: [Some t]). The three counters record calls,
    [uncaught] the faults that left a handler, [urlOk] whether the
    configured channel URL is one the [WebSocket] constructor accepts.
    The refs and the handlers attached to a socket outlive the component;
    [unmounted] records that the cleanup of the effect has run. *)
Record World : Type := mkWorld {
  app : AppState;
  hook : HookState;
  sockets : list readyState;
  timers : list timer;
  console : list logEntry;
  refetchPositionsCalls : nat;
  refetchTradesCalls : nat;
  onMessageCalls : nat;
  uncaught : list exn;
  urlOk : bool;
  unmounted : bool
}.

Definition with_app (f : AppState -> AppState) (w : World) : World :=
  mkWorld (f (app w)) (hook w) (sockets w) (timers w) (console w)
    (refetchPositionsCalls w) (refetchTradesCalls w) (onMessageCalls w)
    (uncaught w) (urlOk w) (unmounted w).

Definition with_hook (f : HookState -> HookState) (w : World) : World :=
  mkWorld (app w) (f (hook w)) (sockets w) (timers w) (console w)
    (refetchPositionsCalls w) (refetchTradesCalls w) (onMessageCalls w)
    (uncaught w) (urlOk w) (unmounted w).

Definition with_sockets (f : list readyState -> list readyState) (w : World) : World :=
  mkWorld (app w) (hook w) (f (sockets w)) (timers w) (console w)
    (refetchPositionsCalls w) (refetchTradesCalls w) (onMessageCalls w)
    (uncaught w) (urlOk w) (unmounted w).

Definition with_timers (f : list timer -> list timer) (w : World) : World :=
  mkWorld (app w) (hook w) (sockets w) (f (timers w)) (console w)
    (refetchPositionsCalls w) (refetchTradesCalls w) (onMessageCalls w)
    (uncaught w) (urlOk w) (unmounted w).

Definition with_console (f : list logEntry -> list logEntry) (w : World) : World :=
  mkWorld (app w) (hook w) (sockets w) (timers w) (f (console w))
    (refetchPositionsCalls w) (refetchTradesCalls w) (onMessageCalls w)
    (uncaught w) (urlOk w) (unmounted w).

Definition with_uncaught (f : list exn -> list exn) (w : World) : World :=
  mkWorld (app w) (hook w) (sockets w) (timers w) (console w)
    (refetchPositionsCalls w) (refetchTradesCalls w) (onMessageCalls w)
    (f (uncaught w)) (urlOk w) (unmounted w).

Definition with_unmounted (b : bool) (w : World) : World :=
  mkWorld (app w) (hook w) (sockets w) (timers w) (console w)
    (refetchPositionsCalls w) (refetchTradesCalls w) (onMessageCalls w)
    (uncaught w) (urlOk w) b.

(** ** Handlers as computations: state and exceptions *)

(** A handler transforms the world and either returns or throws; what it
    wrote before throwing stays written. *)
Definition M (A : Type) : Type := World -> World * (exn + A).

Definition ret {A : Type} (a : A) : M A := fun w => (w, inr a).

Definition throw {A : Type} (e : exn) : M A := fun w => (w, inl e).

Definition bind {A B : Type} (m : M A) (k : A -> M B) : M B :=
  fun w =>
    match m w with
    | (w', inr a) => k a w'
    | (w', inl e) => (w', inl e)
    end.

Definition try_catch {A : Type} (body : M A) (handler : exn -> M A) : M A :=
  fun w =>
    match body w with
    | (w', inl e) => handler e w'
    | (w', inr a) => (w', inr a)
    end.

Definition lift {A : Type} (r : exn + A) : M A := fun w => (w, r).

Definition gets {A : Type} (f : World -> A) : M A := fun w => (w, inr (f w)).

Definition modify (f : World -> World) : M unit := fun w => (f w, inr tt).

Declare Scope js_scope.
Delimit Scope js_scope with js.
Notation "'let*' x := m 'in' k" := (bind m (fun x => k))
  (at level 10, x name, m at level 100, k at level 200) : js_scope.
Notation "m1 ;> m2" := (bind m1 (fun _ => m2))
  (at level 100, m2 at level 200, right associativity) : js_scope.
Local Open Scope js_scope.

(** *** Primitive effects *)

Definition console_log (msg : string) : M unit :=
  modify (with_console (fun c => c ++ [ConsoleLog msg])).

Definition console_error (msg : string) : M unit :=
  modify (with_console (fun c => c ++ [ConsoleError msg])).

Definition setLiveSignals (f : list jsvalue -> list jsvalue) : M unit :=
  modify (with_app (fun a =>
    mkApp (f (liveSignals a)) (livePerformance a) (positions a) (trades a) (performance a))).

Definition setLivePerformance (v : jsvalue) : M unit :=
  modify (with_app (fun a =>
    mkApp (liveSignals a) v (positions a) (trades a) (performance a))).

Definition refetchPositions : M unit :=
  modify (fun w =>
    mkWorld (app w) (hook w) (sockets w) (timers w) (console w)
      (S (refetchPositionsCalls w)) (refetchTradesCalls w) (onMessageCalls w)
      (uncaught w) (urlOk w) (unmounted w)).

Definition refetchTrades : M unit :=
  modify (fun w =>
    mkWorld (app w) (hook w) (sockets w) (timers w) (console w)
      (refetchPositionsCalls w) (S (refetchTradesCalls w)) (onMessageCalls w)
      (uncaught w) (urlOk w) (unmounted w)).

Definition countOnMessage : M unit :=
  modify (fun w =>
    mkWorld (app w) (hook w) (sockets w) (timers w) (console w)
      (refetchPositionsCalls w) (refetchTradesCalls w) (S (onMessageCalls w))
      (uncaught w) (urlOk w) (unmounted w)).

Definition setIsConnected (b : bool) : M unit :=
  modify (with_hook (fun h =>
    mkHook b (error h) (wsRef h) (reconnectTimeoutRef h) (reconnectAttemptsRef h))).

Definition setError (e : option string) : M unit :=
  modify (with_hook (fun h =>
    mkHook (isConnected h) e (wsRef h) (reconnectTimeoutRef h) (reconnectAttemptsRef h))).

Definition set_wsRef (r : option nat) : M unit :=
  modify (with_hook (fun h =>
    mkHook (isConnected h) (error h) r (reconnectTimeoutRef h) (reconnectAttemptsRef h))).

Definition set_reconnectTimeoutRef (r : option nat) : M unit :=
  modify (with_hook (fun h =>
    mkHook (isConnected h) (error h) (wsRef h) r (reconnectAttemptsRef h))).

Definition set_reconnectAttemptsRef (n : Z) : M unit :=
  modify (with_hook (fun h =>
    mkHook (isConnected h) (error h) (wsRef h) (reconnectTimeoutRef h) n)).

(** [new WebSocket(WS_URL)]: a fresh socket in state CONNECTING, or a
    [SyntaxError] for a URL the constructor rejects. *)
Definition new_WebSocket : M nat :=
  fun w =>
    if urlOk w
    then (with_sockets (fun ss => ss ++ [CONNECTING]) w, inr (length (sockets w)))
    else (w, inl (SyntaxError "The URL is invalid")).

(** [ws.close()]: starts the closing handshake of a socket that is not yet
    closing or closed; the [close] event follows later. *)
Definition ws_close (ws : nat) : M unit :=
  modify (with_sockets (fun ss =>
    match ss !! ws with
    | Some CONNECTING | Some OPEN => <[ws := CLOSING]> ss
    | _ => ss
    end)).

(** [setTimeout(callback, delay)]: returns the handle of the new timer. *)
Definition setTimeout (d : Z) : M nat :=
  fun w => (with_timers (fun ts => ts ++ [mkTimer d Pending]) w, inr (length (timers w))).

(** [clearTimeout(t)]: cancels a timer that has not fired. *)
Definition clearTimeout (t : nat) : M unit :=
  modify (with_timers (fun ts =>
    match ts !! t with
    | Some (mkTimer d Pending) => <[t := mkTimer d Cleared]> ts
    | _ => ts
    end)).

(** ** The message handler of App.tsx *)

(** The updater handed to [setLiveSignals], with its bound as a parameter;
    [App] uses 50. *)
Definition bufferInsert (capacity : nat) (signal : jsvalue) (prev : list jsvalue) : list jsvalue :=
  slice0 capacity (signal :: prev).

Definition handleWebSocketMessage (message : jsvalue) : M unit :=
  let* type := lift (get_prop message "type") in
  if is_str type "signal" then
    let* signal := lift (get_prop message "data") in
    setLiveSignals (bufferInsert 50 signal) ;>
    refetchPositions ;>
    refetchTrades
  else if is_str type "performance" then
    let* data := lift (get_prop message "data") in
    setLivePerformance data
  else if is_str type "position_update" then
    refetchPositions
  else
    ret tt.

(** [livePerformance || performance] *)
Definition displayPerformance (a : AppState) : jsvalue :=
  js_or (livePerformance a) (performance a).

(** SignalsFeed.tsx: [signals.slice(0, maxSignals)], default 20; [App]
    passes 10. *)
Definition displaySignals (maxSignals : nat) (signals : list jsvalue) : list jsvalue :=
  slice0 maxSignals signals.

(** ** The push-channel hook (useWebSocket) *)

(** A text frame, by what [JSON.parse] makes of it. *)
Inductive Frame : Type :=
| Undecodable (raw : string)
| Decoded (message : jsvalue).

Definition JSON_parse (f : Frame) : M jsvalue :=
  match f with
  | Undecodable _ => throw (SyntaxError "Unexpected token in JSON")
  | Decoded v => ret v
  end.

(** The subscriber callback handed to the hook, with its call counted. *)
Definition onMessage (message : jsvalue) : M unit :=
  countOnMessage ;> handleWebSocketMessage message.

Definition onopen : M unit :=
  console_log "WebSocket connected" ;>
  setIsConnected true ;>
  setError None ;>
  set_reconnectAttemptsRef 0.

Definition onmessage (f : Frame) : M unit :=
  try_catch
    (let* message := JSON_parse f in
     onMessage message)
    (fun err => console_error "Failed to parse WebSocket message:").

Definition onerror : M unit :=
  console_error "WebSocket error:" ;>
  setError (Some "WebSocket connection error").

Definition maxAttempts : Z := 10.

(** [Math.min(1000 * Math.pow(2, attempts), 30000)], in milliseconds. *)
Definition backoffDelay (attempts : Z) : Z :=
  Z.min (1000 * 2 ^ attempts) 30000.

Definition onclose : M unit :=
  console_log "WebSocket disconnected" ;>
  setIsConnected false ;>
  let* attempts := gets (fun w => reconnectAttemptsRef (hook w)) in
  let delay := backoffDelay attempts in
  if attempts <? maxAttempts then
    console_log "Reconnecting..." ;>
    let* t := setTimeout delay in
    set_reconnectTimeoutRef (Some t)
  else
    setError (Some "Failed to connect after multiple attempts").

Definition connect : M unit :=
  try_catch
    (let* ws := new_WebSocket in
     set_wsRef (Some ws))
    (fun err =>
       console_error "Failed to create WebSocket:" ;>
       setError (Some "Failed to create WebSocket connection")).

(** The callback of the reconnect timer. *)
Definition reconnect : M unit :=
  let* attempts := gets (fun w => reconnectAttemptsRef (hook w)) in
  set_reconnectAttemptsRef (attempts + 1) ;>
  connect.

(** The cleanup of the effect. *)
Definition cleanup : M unit :=
  let* pending := gets (fun w => reconnectTimeoutRef (hook w)) in
  match pending with
  | Some t => clearTimeout t
  | None => ret tt
  end ;>
  let* current := gets (fun w => wsRef (hook w)) in
  match current with
  | Some ws => ws_close ws
  | None => ret tt
  end.

(** ** Events *)

Inductive event : Type :=
| WsOpen (ws : nat)
| WsMessage (ws : nat) (f : Frame)
| WsError (ws : nat)
| WsClose (ws : nat)
| TimerFires (t : nat)
| PositionsFetched (data : list Position.t)
| TradesFetched (data : list Trade.t)
| PerformanceFetched (data : jsvalue)
| Unmount.

(** Runs a handler to its end; a fault that leaves it is recorded. *)
Definition dispatch (handler : M unit) (w : World) : World :=
  match handler w with
  | (w', inr _) => w'
  | (w', inl e) => with_uncaught (fun es => es ++ [e]) w'
  end.

(** One turn of the event loop, [None] when the platform cannot deliver the
    event: [open] comes to a connecting socket, [message] to an open one,
    [close] once to a socket that is not closed, a timer fires while it is
    pending. A completed fetch replaces the snapshot of its query. *)
Definition step (e : event) (w : World) : option World :=
  match e with
  | WsOpen ws =>
      match sockets w !! ws with
      | Some CONNECTING => Some (dispatch onopen (with_sockets (fun ss => <[ws := OPEN]> ss) w))
      | _ => None
      end
  | WsMessage ws f =>
      match sockets w !! ws with
      | Some OPEN => Some (dispatch (onmessage f) w)
      | _ => None
      end
  | WsError ws =>
      match sockets w !! ws with
      | Some CONNECTING | Some OPEN | Some CLOSING => Some (dispatch onerror w)
      | _ => None
      end
  | WsClose ws =>
      match sockets w !! ws with
      | Some CONNECTING | Some OPEN | Some CLOSING =>
          Some (dispatch onclose (with_sockets (fun ss => <[ws := CLOSED]> ss) w))
      | _ => None
      end
  | TimerFires t =>
      match timers w !! t with
      | Some (mkTimer d Pending) =>
          Some (dispatch reconnect (with_timers (fun ts => <[t := mkTimer d Fired]> ts) w))
      | _ => None
      end
  | PositionsFetched data =>
      Some (with_app (fun a =>
        mkApp (liveSignals a) (livePerformance a) data (trades a) (performance a)) w)
  | TradesFetched data =>
      Some (with_app (fun a =>
        mkApp (liveSignals a) (livePerformance a) (positions a) data (performance a)) w)
  | PerformanceFetched data =>
      Some (with_app (fun a =>
        mkApp (liveSignals a) (livePerformance a) (positions a) (trades a) data) w)
  | Unmount =>
      if unmounted w then None
      else Some (with_unmounted true (dispatch cleanup w))
  end.

Fixpoint run (es : list event) (w : World) : option World :=
  match es with
  | [] => Some w
  | e :: rest =>
      match step e w with
      | Some w' => run rest w'
      | None => None
      end
  end.

(** The world before the effect has run, and after mount ([connect()]). *)
Definition initialWorld (url_ok : bool) : World :=
  mkWorld (mkApp [] JNull [] [] JUndefined)
          (mkHook false None None None 0)
          [] [] [] 0%nat 0%nat 0%nat [] url_ok false.

Definition mount (url_ok : bool) : World := dispatch connect (initialWorld url_ok).

(** ** Shape of a well-formed envelope (the interfaces of types.ts) *)

Definition has_string (props : list (string * jsvalue)) (k : string) : bool :=
  match lookup_prop k props with
  | JStr _ => true
  | _ => false
  end.

Definition has_number (props : list (string * jsvalue)) (k : string) : bool :=
  match lookup_prop k props with
  | JNum _ => true
  | _ => false
  end.

Definition has_side (props : list (string * jsvalue)) (k : string) : bool :=
  is_str (lookup_prop k props) "BUY" || is_str (lookup_prop k props) "SELL".

Definition isSignal (v : jsvalue) : bool :=
  match v with
  | JObj props =>
      has_string props "ticker" && has_side props "signal_type"
      && has_string props "timestamp" && has_number props "avg_sentiment"
      && has_number props "mention_count" && has_number props "current_price"
      && has_string props "reasoning"
  | _ => false
  end.

Definition isPerformance (v : jsvalue) : bool :=
  match v with
  | JObj props =>
      has_number props "total_pnl" && has_number props "daily_pnl"
      && has_number props "win_rate" && has_number props "total_trades"
      && has_number props "winning_trades" && has_number props "losing_trades"
      && has_number props "avg_win" && has_number props "avg_loss"
      && match lookup_prop "sharpe_ratio" props with
         | JNum _ | JNull => true
         | _ => false
         end
  | _ => false
  end.

Definition isPosition (v : jsvalue) : bool :=
  match v with
  | JObj props =>
      has_number props "id" && has_string props "ticker"
      && has_number props "quantity" && has_number props "entry_price"
      && has_number props "current_price" && has_number props "unrealized_pnl"
      && has_number props "unrealized_pnl_pct" && has_string props "opened_at"
  | _ => false
  end.

Definition knownTag (type : jsvalue) : bool :=
  is_str type "signal" || is_str type "performance" || is_str type "position_update".

Definition wellFormedEnvelope (message : jsvalue) : bool :=
  match message with
  | JObj props =>
      let type := lookup_prop "type" props in
      let data := lookup_prop "data" props in
      (is_str type "signal" && isSignal data)
      || (is_str type "performance" && isPerformance data)
      || (is_str type "position_update" && isPosition data)
  | _ => false
  end.

(** A malformed frame: it does not decode, or its tag is unknown, or its
    payload does not have the shape its tag announces. *)
Definition malformed (f : Frame) : bool :=
  match f with
  | Undecodable _ => true
  | Decoded message => negb (wellFormedEnvelope message)
  end.

(** ** Data of the scenarios *)

(** A trade of which only the timestamp and the realized P&L matter. *)
Definition tradeAt (ts : Z) (pnl : optnum) : Trade.t :=
  Trade.mk ts "AAPL" SELL 1 100 ts pnl None.

Definition scenarioTrades : list Trade.t :=
  [tradeAt 1 Null; tradeAt 2 (Num 10); tradeAt 3 (Num (-4))].

(** Ten positions in ten distinct tickers, none of them a default. *)
Definition positionIn (ticker : string) : Position.t :=
  Position.mk 1 ticker 1 100 100 0 0 0.

Definition tenPositions : list Position.t :=
  map positionIn ["NVDA"; "AMD"; "MSFT"; "AMZN"; "META"; "NFLX"; "INTC"; "PLTR"; "COIN"; "SPY"].

(** An envelope as the server frames it. *)
Definition envelope (type : string) (data : jsvalue) : jsvalue :=
  JObj [("type", JStr type); ("data", data)].

(** The world after the handler of [App] has processed the given envelopes
    in their order of arrival. *)
Definition receive (messages : list jsvalue) (w : World) : World :=
  foldl (fun w message => fst (handleWebSocketMessage message w)) w messages.

(** The signal buffer with bound [capacity] after the given signals. *)
Definition bufferAfter (capacity : nat) (signals : list jsvalue) : list jsvalue :=
  foldl (fun buffer signal => bufferInsert capacity signal buffer) [] signals.

(** The performance shown after a run of events. *)
Definition displayedAfter (es : list event) (w : World) : option jsvalue :=
  match run es w with
  | Some w' => Some (displayPerformance (app w'))
  | None => None
  end.

Definition performanceWith (total_pnl : Z) : jsvalue :=
  JObj [("total_pnl", JNum total_pnl); ("daily_pnl", JNum 0); ("win_rate", JNum 0);
        ("total_trades", JNum 4); ("winning_trades", JNum 2); ("losing_trades", JNum 2);
        ("avg_win", JNum 0); ("avg_loss", JNum 0); ("sharpe_ratio", JNull)].

(** The specification's reading of a dropped frame: a warning is logged,
    no fault leaves the handler, and neither the reconciled state, nor the
    connection state, nor the sockets and timers change, and nothing is
    refetched. *)
Definition droppedWithWarning (w : World) (f : Frame) : Prop :=
  let w' := fst (onmessage f w) in
  snd (onmessage f w) = inr tt
  /\ (exists msg, console w' = console w ++ [ConsoleError msg])
  /\ app w' = app w
  /\ hook w' = hook w
  /\ sockets w' = sockets w
  /\ timers w' = timers w
  /\ refetchPositionsCalls w' = refetchPositionsCalls w
  /\ refetchTradesCalls w' = refetchTradesCalls w.

(** The same without a log entry. *)
Definition droppedSilently (w : World) (f : Frame) : Prop :=
  let w' := fst (onmessage f w) in
  snd (onmessage f w) = inr tt
  /\ console w' = console w
  /\ app w' = app w
  /\ hook w' = hook w
  /\ sockets w' = sockets w
  /\ timers w' = timers w
  /\ refetchPositionsCalls w' = refetchPositionsCalls w
  /\ refetchTradesCalls w' = refetchTradesCalls w.

(** [n] failed attempts in a row: the socket [ws] closes, the timer [t]
    that its [onclose] scheduled fires and opens the next socket, which
    closes in turn, and so on; no socket opens in between. *)
Fixpoint retryTrace (ws t : nat) (n : nat) : list event :=
  match n with
  | O => []
  | S n' => WsClose ws :: TimerFires t :: retryTrace (S ws) (S t) n'
  end.

(** The events of the push channel: those of a socket and of a timer. *)
Definition isChannelEvent (e : event) : bool :=
  match e with
  | WsOpen _ | WsMessage _ _ | WsError _ | WsClose _ | TimerFires _ => true
  | _ => false
  end.

(** Teardown while the channel is open, and what the platform delivers
    next: the [close] of the socket that the cleanup closed, the timer that
    its [onclose] scheduled, the [open] of the socket that the timer's
    callback created, and a frame on that socket. *)
Definition teardownWhileOpen : list event := [WsOpen 0; Unmount].

Definition afterTeardown : list event :=
  [WsClose 0; TimerFires 0; WsOpen 1;
   WsMessage 1 (Decoded (envelope "position_update" JNull))].


(** No socket is left that could deliver an event, no timer that could
    fire. *)
Definition quiescent (w : World) : Prop :=
  Forall (fun st => st = CLOSED) (sockets w)
  /\ Forall (fun tm => status tm <> Pending) (timers w).

(** ** The remaining logic of the components *)

(** *** PnLChart.tsx *)

(** The series of running totals that starts from [total]: the reducer of
    the chart, written as a recursion over the trades. *)
Fixpoint runningFrom (total : Z) (ts : list Trade.t) : list ChartDataPoint :=
  match ts with
  | [] => []
  | t :: rest =>
      let newPnL := total + pnl_or_zero t in
      mkPoint (Trade.timestamp t) newPnL :: runningFrom newPnL rest
  end.

(** The trades of the series, in the order of the series. *)
Definition chartTrades (trades : list Trade.t) : list Trade.t :=
  js_sort byTimestamp (List.filter pnl_not_undefined trades).

(** [chartData.length === 0]: the chart is replaced by the text
    "No trades with realized P&L yet". *)
Definition chartIsEmpty (trades : list Trade.t) : bool :=
  Nat.eqb (length (chartData trades)) 0.

(** *** PositionsTable.tsx *)

(** [positions.reduce((sum, pos) => sum + pos.unrealized_pnl, 0)] *)
Definition totalUnrealizedPnL (positions : list Position.t) : Z :=
  foldl (fun sum pos => sum + Position.unrealized_pnl pos) 0 positions.

(** [v >= 0 ? 'positive' : 'negative'] *)
Definition pnlClass (v : Z) : string :=
  if v >=? 0 then "positive" else "negative".

Definition headerClass (positions : list Position.t) : string :=
  pnlClass (totalUnrealizedPnL positions).

Definition rowClass (position : Position.t) : string :=
  pnlClass (Position.unrealized_pnl position).

(** *** SentimentChart.tsx *)

(** [tickers[0] || 'AAPL']: the initial value of the ticker selector. *)
Definition initialSelectedTicker (tickers : list string) : string :=
  match tickers with
  | [] => "AAPL"
  | first :: _ => if String.eqb first "" then "AAPL" else first
  end.

(** *** Runs of the client *)

(** A world the client can be in: the component was mounted and the
    platform delivered some events. *)
Definition reachable (w : World) : Prop :=
  exists url_ok es, run es (mount url_ok) = Some w.

(** The tag of an envelope, [undefined] when it cannot be read. *)
Definition tagOf (message : jsvalue) : jsvalue :=
  match get_prop message "type" with
  | inr type => type
  | inl _ => JUndefined
  end.

Definition countTag (tag : string) (messages : list jsvalue) : nat :=
  length (List.filter (fun m => is_str (tagOf m) tag) messages).

#[global] Instance readyState_eq_dec : EqDecision readyState.
Proof. solve_decision. Defined.

#[global] Instance timerStatus_eq_dec : EqDecision timerStatus.
Proof. solve_decision. Defined.

Definition terminalError : string := "Failed to connect after multiple attempts".

(** What holds of the channel in every world the client can be in: the
    attempt counter stays within its ceiling; a socket that is not closed
    is the one [wsRef] names; a pending timer is the one
    [reconnectTimeoutRef] names, was scheduled below the ceiling and finds
    every socket closed; the indicator says connected only while the named
    socket is open or closing; the terminal error stands only when the
    attempts are used up and nothing is left to happen; no fault has left a
    handler. *)
Definition channelInv (w : World) : Prop :=
  (0 <= reconnectAttemptsRef (hook w) <= maxAttempts)
  /\ (forall i st, sockets w !! i = Some st -> st <> CLOSED ->
                   wsRef (hook w) = Some i)
  /\ (forall t tm, timers w !! t = Some tm -> status tm = Pending ->
                   reconnectTimeoutRef (hook w) = Some t
                   /\ reconnectAttemptsRef (hook w) < maxAttempts
                   /\ Forall (fun st => st = CLOSED) (sockets w))
  /\ (isConnected (hook w) = true ->
      exists i st, wsRef (hook w) = Some i /\ sockets w !! i = Some st
                   /\ (st = OPEN \/ st = CLOSING))
  /\ (error (hook w) = Some terminalError ->
      reconnectAttemptsRef (hook w) = maxAttempts /\ quiescent w)
  /\ uncaught w = [].

(** Events that leave the channel as it is: frames, errors, fetches. *)
Definition isSteadyEvent (e : event) : bool :=
  match e with
  | WsMessage _ _ | WsError _
  | PositionsFetched _ | TradesFetched _ | PerformanceFetched _ => true
  | _ => false
  end.

(** Order of two trades by their instants. *)
Definition notLater (a b : Trade.t) : Prop :=
  Trade.timestamp a <= Trade.timestamp b.

(** The world after mount and the opening of the first socket. *)
Definition openWorld : World :=
  Eval vm_compute in default (mount true) (run [WsOpen 0] (mount true)).

(** The world after ten failed attempts and the close of the last socket. *)
Definition exhaustedWorld : World :=
  Eval vm_compute in
    default (mount true) (run (retryTrace 0 0 10 ++ [WsClose 10]) (mount true)).

(** *** SignalsFeed.tsx: what rendering a signal reads *)

(** [v.toFixed(n)]: a number has the method; reading it off [undefined]
    or [null] throws, and so does calling what is not a function. *)
Definition toFixed (v : jsvalue) : exn + unit :=
  match v with
  | JNum _ => inr tt
  | JUndefined => inl (TypeError "Cannot read properties of undefined")
  | JNull => inl (TypeError "Cannot read properties of null")
  | _ => inl (TypeError "toFixed is not a function")
  end.

(** The reads of one entry of the feed, in the order of the JSX:
    [signal.ticker] for the key, [signal.current_price.toFixed(2)],
    [signal.avg_sentiment.toFixed(3)]. (The date library may fault as well,
    on a timestamp that is not a date; that is left out, so a fault found
    here is one of the component.) *)
Definition renderSignal (signal : jsvalue) : exn + unit :=
  match get_prop signal "ticker" with
  | inl e => inl e
  | inr _ =>
      match get_prop signal "current_price" with
      | inl e => inl e
      | inr price =>
          match toFixed price with
          | inl e => inl e
          | inr _ =>
              match get_prop signal "avg_sentiment" with
              | inl e => inl e
              | inr sentiment => toFixed sentiment
              end
          end
      end
  end.

(** [displaySignals.map(...)]: the entries are rendered in order; the first
    fault ends the render. *)
Fixpoint renderAll (signals : list jsvalue) : exn + unit :=
  match signals with
  | [] => inr tt
  | signal :: rest =>
      match renderSignal signal with
      | inl e => inl e
      | inr _ => renderAll rest
      end
  end.

Definition renderSignalsFeed (maxSignals : nat) (signals : list jsvalue) : exn + unit :=
  renderAll (displaySignals maxSignals signals).

(** A signal of the shape of types.ts. *)
Definition signalWith (ticker : string) : jsvalue :=
  JObj [("ticker", JStr ticker); ("signal_type", JStr "BUY");
        ("timestamp", JStr "2025-01-01T10:00:00Z"); ("avg_sentiment", JNum 1);
        ("mention_count", JNum 12); ("current_price", JNum 100);
        ("reasoning", JStr "momentum")].

(** The frame [{"type":"signal","data":null}]. *)
Definition nullSignalFrame : Frame := Decoded (envelope "signal" JNull).

(** * Properties *)

(** ** Cumulative P&L *)

Section CumulativePnL.

Implicit Types (t : Trade.t) (ts : list Trade.t) (acc : list ChartDataPoint).

Lemma sort_insert_perm {A : Type} (cmp : A -> A -> Z) (x : A) (l : list A) :
  sort_insert cmp x l ≡ₚ x :: l.
Proof.
  induction l as [|y l IH]; simpl; [done|].
  destruct (cmp x y <=? 0); [done|].
  rewrite IH. apply Permutation_swap.
Qed.

Lemma js_sort_perm {A : Type} (cmp : A -> A -> Z) (l : list A) :
  js_sort cmp l ≡ₚ l.
Proof.
  induction l as [|x l IH]; simpl; [done|].
  fold (js_sort cmp l). by rewrite sort_insert_perm, IH.
Qed.

Lemma finalTotal_snoc acc (p : ChartDataPoint) :
  finalTotal (acc ++ [p]) = cumulative_pnl p.
Proof. unfold finalTotal. by rewrite last_snoc. Qed.

Lemma pushPoint_total acc t :
  finalTotal (pushPoint acc t) = finalTotal acc + pnl_or_zero t.
Proof. unfold pushPoint. by rewrite finalTotal_snoc. Qed.

Lemma foldl_pushPoint_length ts : forall acc,
  length (foldl pushPoint acc ts) = (length acc + length ts)%nat.
Proof.
  induction ts as [|t ts IH]; intros acc; simpl; [lia|].
  rewrite IH. unfold pushPoint. rewrite length_app. simpl. lia.
Qed.

Lemma foldl_pushPoint_total ts : forall acc,
  finalTotal (foldl pushPoint acc ts)
  = finalTotal acc + sumZ (map pnl_or_zero ts).
Proof.
  induction ts as [|t ts IH]; intros acc; simpl; [lia|].
  rewrite IH, pushPoint_total. lia.
Qed.

Lemma sumZ_perm (xs ys : list Z) : xs ≡ₚ ys -> sumZ xs = sumZ ys.
Proof. induction 1; simpl; lia. Qed.

Lemma filter_perm {A : Type} (f : A -> bool) (xs ys : list A) :
  xs ≡ₚ ys -> List.filter f xs ≡ₚ List.filter f ys.
Proof.
  induction 1 as [|x l l' _ IH|x y l|l l' l'' _ IH1 _ IH2]; simpl.
  - done.
  - destruct (f x); by rewrite IH.
  - destruct (f x), (f y); try done. apply Permutation_swap.
  - by rewrite IH1.
Qed.

Lemma sum_filter_not_undefined ts :
  sumZ (map pnl_or_zero (List.filter pnl_not_undefined ts))
  = sumZ (map pnl_or_zero ts).
Proof.
  induction ts as [|t ts IH]; simpl; [done|].
  unfold pnl_not_undefined at 1, pnl_or_zero at 2.
  destruct (Trade.realized_pnl t) eqn:E; simpl; rewrite IH;
    unfold pnl_or_zero; rewrite ?E; lia.
Qed.

(** The series has one point per trade that passes the filter. *)
Lemma chartData_length ts :
  length (chartData ts) = length (List.filter pnl_not_undefined ts).
Proof.
  unfold chartData. rewrite foldl_pushPoint_length. simpl.
  by rewrite (Permutation_length (js_sort_perm _ _)).
Qed.

(** It ends on the sum of the realized P&L of all trades. *)
Lemma chartData_total ts :
  finalTotal (chartData ts) = sumZ (map pnl_or_zero ts).
Proof.
  unfold chartData. rewrite foldl_pushPoint_total.
  rewrite (sumZ_perm _ _ (Permutation_map _ (js_sort_perm _ _))).
  rewrite sum_filter_not_undefined. unfold finalTotal. simpl. lia.
Qed.

(** Length and final total do not depend on the order of the input. *)
Lemma chartData_perm ts ts' :
  ts ≡ₚ ts' ->
  length (chartData ts') = length (chartData ts)
  /\ finalTotal (chartData ts') = finalTotal (chartData ts).
Proof.
  intros Hp. rewrite !chartData_length, !chartData_total. split.
  - symmetry. by apply Permutation_length, filter_perm.
  - symmetry. by apply sumZ_perm, Permutation_map.
Qed.

(** When no trade carries a JSON [null], the filter keeps exactly the
    trades that carry a realized P&L. *)
Lemma filter_without_null ts :
  Forall (fun t => Trade.realized_pnl t <> Null) ts ->
  List.filter pnl_not_undefined ts = List.filter carries_pnl ts.
Proof.
  induction 1 as [|t ts Ht _ IH]; simpl; [done|].
  unfold pnl_not_undefined at 1, carries_pnl at 1.
  destruct (Trade.realized_pnl t); try done; by rewrite IH.
Qed.

Lemma chartData_sort_then_fold ts ts' :
  Forall (fun t => Trade.realized_pnl t <> Null) ts ->
  ts ≡ₚ ts' ->
  length (chartData ts') = length (List.filter carries_pnl ts)
  /\ finalTotal (chartData ts') = sumZ (map pnl_or_zero ts).
Proof.
  intros Hn Hp. destruct (chartData_perm _ _ Hp) as [-> ->].
  by rewrite chartData_length, chartData_total, filter_without_null.
Qed.

End CumulativePnL.

(** C2. On the trades [{ts:1, null}, {ts:2, 10}, {ts:3, -4}] the series
    should be [(2,10), (3,6)]. The filter of the chart tests only for
    [undefined], so the trade with a [null] realized P&L passes it and
    adds the point (1,0): the series has three points. With the key
    missing instead of [null] the series is the expected one. *)
Theorem chartData_null_trade_adds_point :
  chartData scenarioTrades = [mkPoint 1 0; mkPoint 2 10; mkPoint 3 6]
  /\ chartData scenarioTrades <> [mkPoint 2 10; mkPoint 3 6]
  /\ chartData [tradeAt 1 Absent; tradeAt 2 (Num 10); tradeAt 3 (Num (-4))]
     = [mkPoint 2 10; mkPoint 3 6].
Proof. split; [reflexivity|]. split; [discriminate|reflexivity]. Qed.

(** C4. The length of the series should be the number of trades that carry
    a realized P&L. On a single trade whose realized P&L is [null] no trade
    carries one, yet the series has one point; the final total, 0, is the
    sum of the realized P&L all the same. *)
Theorem chartData_length_counts_null :
  length (List.filter carries_pnl [tradeAt 1 Null]) = 0%nat
  /\ length (chartData [tradeAt 1 Null]) = 1%nat
  /\ finalTotal (chartData [tradeAt 1 Null]) = 0.
Proof. repeat split. Qed.

(** ** Active tickers *)

Section ActiveTickers.

Implicit Types (x y : string) (l seen : list string).

Lemma filter_filter_and {A : Type} (f g : A -> bool) (l : list A) :
  List.filter f (List.filter g l) = List.filter (fun a => g a && f a) l.
Proof.
  induction l as [|a l IH]; simpl; [done|].
  destruct (g a); simpl; [destruct (f a)|]; by rewrite IH.
Qed.

Lemma filter_sublist {A : Type} (f : A -> bool) (l : list A) :
  sublist (List.filter f l) l.
Proof.
  induction l as [|a l IH]; simpl; [constructor|].
  destruct (f a); by constructor.
Qed.

Lemma elem_of_filter_bool {A : Type} (f : A -> bool) (l : list A) (a : A) :
  a ∈ List.filter f l <-> a ∈ l /\ f a = true.
Proof. rewrite !list_elem_of_In. apply filter_In. Qed.

Lemma notIn_true seen y : notIn seen y = true <-> y ∉ seen.
Proof.
  unfold notIn. rewrite negb_true_iff, bool_decide_eq_false. done.
Qed.

Lemma notIn_nil y : notIn [] y = true.
Proof. apply notIn_true, not_elem_of_nil. Qed.

Lemma notIn_app seen seen' y :
  notIn (seen ++ seen') y = notIn seen y && notIn seen' y.
Proof.
  apply eq_true_iff_eq. rewrite andb_true_iff, !notIn_true.
  rewrite elem_of_app. tauto.
Qed.

Lemma notIn_singleton x y : notIn [x] y = negb (String.eqb y x).
Proof.
  apply eq_true_iff_eq. rewrite notIn_true, negb_true_iff.
  rewrite list_elem_of_singleton. destruct (String.eqb_spec y x); split; congruence.
Qed.

Lemma filter_all {A : Type} (f : A -> bool) (l : list A) :
  (forall a, f a = true) -> List.filter f l = l.
Proof.
  intros Hf. induction l as [|a l IH]; simpl; [done|]. by rewrite Hf, IH.
Qed.

(** Insertion into the set, one element after the other, keeps the first
    occurrence of each element that was not already there. *)
Lemma foldl_set_add l : forall seen,
  foldl set_add seen l = seen ++ List.filter (notIn seen) (keepFirst l).
Proof.
  induction l as [|x l IH]; intros seen; simpl.
  - by rewrite app_nil_r.
  - rewrite IH. unfold set_add. rewrite filter_filter_and.
    destruct (bool_decide (x ∈ seen)) eqn:E.
    + replace (notIn seen x) with false by (unfold notIn; by rewrite E).
      f_equal. apply filter_ext. intros y.
      rewrite <- notIn_singleton.
      apply bool_decide_eq_true in E.
      destruct (notIn seen y) eqn:Ey; [|by rewrite andb_false_r].
      rewrite andb_true_r. symmetry. apply notIn_true. apply notIn_true in Ey.
      rewrite list_elem_of_singleton. congruence.
    + replace (notIn seen x) with true by (unfold notIn; by rewrite E).
      rewrite <- app_assoc. simpl. do 2 f_equal.
      apply filter_ext. intros y.
      by rewrite notIn_app, notIn_singleton, andb_comm.
Qed.

Lemma arrayFromSet_keepFirst l : arrayFromSet l = keepFirst l.
Proof.
  unfold arrayFromSet. rewrite foldl_set_add. simpl.
  apply filter_all, notIn_nil.
Qed.

Lemma elem_of_keepFirst l x : x ∈ keepFirst l <-> x ∈ l.
Proof.
  induction l as [|a l IH]; simpl; [done|].
  rewrite !elem_of_cons, elem_of_filter_bool, IH, negb_true_iff.
  destruct (String.eqb_spec x a); split; intros; try tauto; try intuition congruence.
Qed.

Lemma keepFirst_NoDup l : NoDup (keepFirst l).
Proof.
  induction l as [|a l IH]; simpl; constructor.
  - rewrite elem_of_filter_bool, negb_true_iff, String.eqb_neq. tauto.
  - eapply sublist_NoDup; [done|apply filter_sublist].
Qed.

Lemma keepFirst_sublist l : sublist (keepFirst l) l.
Proof.
  induction l as [|a l IH]; simpl; constructor.
  etrans; [apply filter_sublist|done].
Qed.

Lemma keepFirst_app l l' :
  keepFirst (l ++ l') = keepFirst l ++ List.filter (notIn l) (keepFirst l').
Proof.
  rewrite <- !arrayFromSet_keepFirst. unfold arrayFromSet.
  rewrite foldl_app, !foldl_set_add. simpl.
  rewrite !(filter_all _ _ notIn_nil). f_equal.
  apply filter_ext. intros y. apply eq_true_iff_eq.
  by rewrite !notIn_true, elem_of_keepFirst.
Qed.

End ActiveTickers.

(** C7. The active tickers are the first 10 of the de-duplicated
    candidates (position tickers, tickers of the first 10 trades, the three
    defaults), each kept at its first occurrence: no ticker occurs twice,
    there are at most 10, they stand in the order of the candidates, each
    is a candidate, and every candidate is among them when at most 10
    distinct candidates exist. *)
Theorem uniqueTickers_union_dedup_capped (positions : list Position.t) (trades : list Trade.t) :
  uniqueTickers positions trades
  = take 10 (keepFirst (map Position.ticker positions
                          ++ map Trade.ticker (take 10 trades)
                          ++ ["AAPL"; "TSLA"; "GME"]))
  /\ NoDup (uniqueTickers positions trades)
  /\ (length (uniqueTickers positions trades) <= 10)%nat
  /\ sublist (uniqueTickers positions trades) (tickerCandidates positions trades)
  /\ (forall x, x ∈ uniqueTickers positions trades ->
                x ∈ tickerCandidates positions trades)
  /\ ((length (keepFirst (tickerCandidates positions trades)) <= 10)%nat ->
      forall x, x ∈ tickerCandidates positions trades ->
                x ∈ uniqueTickers positions trades).
Proof.
  assert (Hsub : sublist (uniqueTickers positions trades)
                         (tickerCandidates positions trades)).
  { unfold uniqueTickers, slice0. rewrite arrayFromSet_keepFirst.
    etrans; [apply sublist_take|apply keepFirst_sublist]. }
  unfold uniqueTickers, slice0 in *. rewrite arrayFromSet_keepFirst in *.
  repeat split.
  - eapply sublist_NoDup; [apply keepFirst_NoDup|apply sublist_take].
  - rewrite length_take. lia.
  - done.
  - intros x Hx. eapply elem_of_sublist; [apply Hx|done].
  - intros Hlen x Hx. rewrite take_ge by done. by apply elem_of_keepFirst.
Qed.

Lemma uniqueTickers_union_dedup_capped_witness :
  "GME" ∈ uniqueTickers [positionIn "NVDA"] [tradeAt 1 Absent].
Proof.
  destruct (uniqueTickers_union_dedup_capped [positionIn "NVDA"] [tradeAt 1 Absent])
    as (_ & _ & _ & _ & _ & Hall).
  apply Hall.
  - vm_compute. lia.
  - vm_compute. repeat constructor.
Defined.

(** C10. Position tickers come first, then the unseen tickers of the first
    10 trades, then those of AAPL, TSLA, GME (in this order) that were not
    seen before, and the cut at 10 takes from the end: when all of them fit
    the three groups appear whole and in this order; the position tickers
    are all kept unless they alone exceed the cap; trade tickers and
    defaults are kept only in the room the positions leave; and with ten
    positions in distinct tickers other than the defaults none of AAPL,
    TSLA, GME appears, whatever the trades. *)
Theorem uniqueTickers_positions_first (positions : list Position.t) (trades : list Trade.t) :
  let fromPositions := keepFirst (map Position.ticker positions) in
  let fromTrades :=
    List.filter (notIn (map Position.ticker positions))
                (keepFirst (map Trade.ticker (take 10 trades))) in
  let fromDefaults :=
    List.filter (notIn (map Position.ticker positions
                          ++ map Trade.ticker (take 10 trades)))
                ["AAPL"; "TSLA"; "GME"] in
  uniqueTickers positions trades
  = take 10 fromPositions
      ++ take (10 - length fromPositions) (fromTrades ++ fromDefaults)
  /\ ((length (fromPositions ++ fromTrades ++ fromDefaults) <= 10)%nat ->
      uniqueTickers positions trades = fromPositions ++ fromTrades ++ fromDefaults)
  /\ ((length fromPositions <= 10)%nat ->
      fromPositions `prefix_of` uniqueTickers positions trades)
  /\ ((10 <= length fromPositions)%nat ->
      uniqueTickers positions trades = take 10 fromPositions)
  /\ (forall trades' d, d ∈ ["AAPL"; "TSLA"; "GME"] ->
                        d ∉ uniqueTickers tenPositions trades').
Proof.
  intros fromPositions fromTrades fromDefaults.
  assert (Heq : forall ps ts,
    uniqueTickers ps ts
    = take 10 (keepFirst (map Position.ticker ps))
        ++ take (10 - length (keepFirst (map Position.ticker ps)))
             (List.filter (notIn (map Position.ticker ps))
                          (keepFirst (map Trade.ticker (take 10 ts)))
              ++ List.filter (notIn (map Position.ticker ps
                                       ++ map Trade.ticker (take 10 ts)))
                             ["AAPL"; "TSLA"; "GME"])).
  { intros ps ts. unfold uniqueTickers, tickerCandidates, slice0.
    rewrite arrayFromSet_keepFirst, !keepFirst_app, List.filter_app, filter_filter_and.
    rewrite take_app. do 3 f_equal.
    apply filter_ext. intros y. by rewrite notIn_app, andb_comm. }
  split; [apply Heq|]. split; [|split; [|split]].
  - intros Hlen. rewrite Heq. fold fromPositions fromTrades fromDefaults.
    rewrite <- take_app. by rewrite take_ge.
  - intros Hlen. rewrite Heq. fold fromPositions.
    rewrite take_ge by done. by eexists.
  - intros Hlen. rewrite Heq. fold fromPositions.
    replace (10 - length fromPositions)%nat with 0%nat by lia.
    by rewrite take_0, app_nil_r.
  - intros trades' d Hd. rewrite Heq.
    replace (10 - length (keepFirst (map Position.ticker tenPositions)))%nat
      with 0%nat by (vm_compute; lia).
    rewrite take_0, app_nil_r.
    rewrite !elem_of_cons in Hd.
    destruct Hd as [->|[->|[->|Hd]]]; [| | |by apply not_elem_of_nil in Hd];
      apply (bool_decide_unpack _); vm_compute; exact I.
Qed.

Lemma uniqueTickers_positions_first_witness :
  uniqueTickers [positionIn "NVDA"; positionIn "TSLA"] [tradeAt 1 Absent]
  = ["NVDA"; "TSLA"; "AAPL"; "GME"]
  /\ uniqueTickers tenPositions [tradeAt 1 Absent]
     = take 10 (keepFirst (map Position.ticker tenPositions))
  /\ keepFirst (map Position.ticker [positionIn "NVDA"])
       `prefix_of` uniqueTickers [positionIn "NVDA"] []
  /\ "AAPL" ∉ uniqueTickers tenPositions [tradeAt 1 Absent].
Proof.
  split; [|split; [|split]].
  - destruct (uniqueTickers_positions_first
                [positionIn "NVDA"; positionIn "TSLA"] [tradeAt 1 Absent])
      as (_ & H & _).
    apply H. vm_compute. lia.
  - destruct (uniqueTickers_positions_first tenPositions [tradeAt 1 Absent])
      as (_ & _ & _ & H & _).
    apply H. vm_compute. lia.
  - destruct (uniqueTickers_positions_first [positionIn "NVDA"] [])
      as (_ & _ & H & _).
    apply H. vm_compute. lia.
  - destruct (uniqueTickers_positions_first [] []) as (_ & _ & _ & _ & H).
    apply H. repeat constructor.
Defined.

(** ** Reconciliation of pushed envelopes *)

Section Reconciliation.

Implicit Types (w : World) (props : list (string * jsvalue)).

Lemma bufferInsert_length capacity (signal : jsvalue) (prev : list jsvalue) :
  length (bufferInsert capacity signal prev) = min capacity (S (length prev)).
Proof. unfold bufferInsert, slice0. by rewrite length_take. Qed.

#[local] Arguments bufferInsert : simpl never.
#[local] Arguments slice0 : simpl never.

Ltac exec :=
  unfold onmessage, onMessage, handleWebSocketMessage, JSON_parse, try_catch,
    bind, lift, ret, throw, gets, modify, countOnMessage, setLiveSignals,
    setLivePerformance, refetchPositions, refetchTrades, console_error,
    console_log, with_app, with_console, envelope;
  simpl.

Lemma handle_signal w props :
  lookup_prop "type" props = JStr "signal" ->
  handleWebSocketMessage (JObj props) w
  = (mkWorld
       (mkApp (bufferInsert 50 (lookup_prop "data" props) (liveSignals (app w)))
              (livePerformance (app w)) (positions (app w)) (trades (app w))
              (performance (app w)))
       (hook w) (sockets w) (timers w) (console w)
       (S (refetchPositionsCalls w)) (S (refetchTradesCalls w)) (onMessageCalls w)
       (uncaught w) (urlOk w) (unmounted w),
     inr tt).
Proof. intros Ht. exec. by rewrite Ht. Qed.

Lemma handle_performance w props :
  lookup_prop "type" props = JStr "performance" ->
  handleWebSocketMessage (JObj props) w
  = (with_app (fun a => mkApp (liveSignals a) (lookup_prop "data" props)
                              (positions a) (trades a) (performance a)) w,
     inr tt).
Proof. intros Ht. exec. by rewrite Ht. Qed.

Lemma handle_position_update w props :
  lookup_prop "type" props = JStr "position_update" ->
  handleWebSocketMessage (JObj props) w
  = (mkWorld (app w) (hook w) (sockets w) (timers w) (console w)
       (S (refetchPositionsCalls w)) (refetchTradesCalls w) (onMessageCalls w)
       (uncaught w) (urlOk w) (unmounted w),
     inr tt).
Proof. intros Ht. exec. by rewrite Ht. Qed.

Lemma handle_unknown_tag w message type :
  get_prop message "type" = inr type ->
  knownTag type = false ->
  handleWebSocketMessage message w = (w, inr tt).
Proof.
  intros Hg Hk. unfold knownTag in Hk.
  apply orb_false_iff in Hk as [Hk H3]. apply orb_false_iff in Hk as [H1 H2].
  unfold handleWebSocketMessage, bind, lift, ret. by rewrite Hg, H1, H2, H3.
Qed.

Lemma handle_no_tag w message e :
  get_prop message "type" = inl e ->
  handleWebSocketMessage message w = (w, inl e).
Proof.
  intros Hg. unfold handleWebSocketMessage, bind, lift. by rewrite Hg.
Qed.

(** C5. A [signal] envelope puts its payload at the head of the buffer and
    cuts the buffer at its bound (50 in [App]), so the length grows by one
    up to the bound, and calls the refetch of positions and the refetch of
    trades once each. With bound 3 the signals S1..S4 leave [S4, S3, S2];
    the same holds of what the feed shows of the stored buffer with
    [maxSignals] 3. *)
Theorem signal_envelope_buffers_and_refetches w props :
  lookup_prop "type" props = JStr "signal" ->
  let signal := lookup_prop "data" props in
  let w' := fst (handleWebSocketMessage (JObj props) w) in
  snd (handleWebSocketMessage (JObj props) w) = inr tt
  /\ liveSignals (app w') = take 50 (signal :: liveSignals (app w))
  /\ length (liveSignals (app w')) = min 50 (S (length (liveSignals (app w))))
  /\ refetchPositionsCalls w' = S (refetchPositionsCalls w)
  /\ refetchTradesCalls w' = S (refetchTradesCalls w)
  /\ (forall capacity s prev,
        bufferInsert capacity s prev = take capacity (s :: prev)
        /\ length (bufferInsert capacity s prev) = min capacity (S (length prev)))
  /\ (forall S1 S2 S3 S4,
        bufferAfter 3 [S1; S2; S3; S4] = [S4; S3; S2]
        /\ displaySignals 3
             (liveSignals (app (receive [envelope "signal" S1; envelope "signal" S2;
                                         envelope "signal" S3; envelope "signal" S4] w)))
           = [S4; S3; S2]).
Proof.
  intros Ht signal w'. subst signal w'. rewrite (handle_signal _ _ Ht).
  cbn [fst snd app liveSignals refetchPositionsCalls refetchTradesCalls].
  repeat split; apply bufferInsert_length.
Qed.

Lemma signal_envelope_buffers_and_refetches_witness :
  liveSignals (app (fst (handleWebSocketMessage (envelope "signal" (JStr "S1")) (mount true))))
  = [JStr "S1"]
  /\ displaySignals 3
       (liveSignals (app (receive [envelope "signal" (JStr "S1"); envelope "signal" (JStr "S2");
                                   envelope "signal" (JStr "S3"); envelope "signal" (JStr "S4")]
                                  (mount true))))
     = [JStr "S4"; JStr "S3"; JStr "S2"].
Proof.
  split.
  - apply (signal_envelope_buffers_and_refetches (mount true)
             [("type", JStr "signal"); ("data", JStr "S1")]).
    reflexivity.
  - apply (signal_envelope_buffers_and_refetches (mount true)
             [("type", JStr "signal"); ("data", JStr "S1")]);
      reflexivity.
Defined.

(** C8. A [position_update] envelope calls the refetch of positions once
    and nothing else: the refetch of trades is not called, and the signal
    buffer, the live and the polled performance (hence the displayed one)
    and the snapshots of positions and trades are what they were. *)
Theorem position_update_refetches_positions_only w props :
  lookup_prop "type" props = JStr "position_update" ->
  let w' := fst (handleWebSocketMessage (JObj props) w) in
  snd (handleWebSocketMessage (JObj props) w) = inr tt
  /\ refetchPositionsCalls w' = S (refetchPositionsCalls w)
  /\ refetchTradesCalls w' = refetchTradesCalls w
  /\ app w' = app w
  /\ liveSignals (app w') = liveSignals (app w)
  /\ displayPerformance (app w') = displayPerformance (app w)
  /\ trades (app w') = trades (app w)
  /\ hook w' = hook w /\ sockets w' = sockets w /\ timers w' = timers w
  /\ console w' = console w.
Proof.
  intros Ht w'. subst w'. rewrite (handle_position_update _ _ Ht).
  repeat split.
Qed.

Lemma position_update_refetches_positions_only_witness :
  refetchPositionsCalls
    (fst (handleWebSocketMessage (envelope "position_update" JNull) (mount true))) = 1%nat
  /\ refetchTradesCalls
       (fst (handleWebSocketMessage (envelope "position_update" JNull) (mount true))) = 0%nat.
Proof.
  split;
    apply (position_update_refetches_positions_only (mount true)
             [("type", JStr "position_update"); ("data", JNull)]);
    reflexivity.
Defined.

Lemma run_polls (polls : list jsvalue) : forall w,
  exists w', run (map PerformanceFetched polls) w = Some w'
    /\ livePerformance (app w') = livePerformance (app w)
    /\ performance (app w') = default (performance (app w)) (last polls).
Proof.
  induction polls as [|v polls IH]; intros w.
  - by exists w.
  - cbn [map run step].
    destruct (IH (with_app (fun a => mkApp (liveSignals a) (livePerformance a)
                                       (positions a) (trades a) v) w))
      as (w' & Hrun & Hlive & Hperf).
    exists w'. split; [done|]. split; [done|].
    rewrite Hperf. destruct polls as [|v' polls]; [done|].
    rewrite last_cons_cons.
    destruct (last (v' :: polls)) eqn:E; [done|]. by apply last_None in E.
Qed.

(** C1 (as amended). A [performance] envelope replaces the live value
    outright; a pushed value that is an object is the one displayed from
    then on, also after any number of polls have completed and replaced the
    polled snapshot. The polled snapshot is displayed exactly while no live
    value is held. *)
Theorem pushed_performance_stays_displayed w props (polls : list jsvalue) :
  lookup_prop "type" props = JStr "performance" ->
  truthy (lookup_prop "data" props) = true ->
  let pushed := lookup_prop "data" props in
  let w1 := fst (handleWebSocketMessage (JObj props) w) in
  livePerformance (app w1) = pushed
  /\ displayPerformance (app w1) = pushed
  /\ (exists w2, run (map PerformanceFetched polls) w1 = Some w2
                 /\ performance (app w2) = default (performance (app w)) (last polls)
                 /\ displayPerformance (app w2) = pushed)
  /\ (forall a, truthy (livePerformance a) = false ->
                displayPerformance a = performance a).
Proof.
  intros Ht Htruthy pushed w1. subst pushed w1.
  rewrite (handle_performance _ _ Ht). cbn [fst].
  set (w1 := with_app _ w).
  assert (Hlive : livePerformance (app w1) = lookup_prop "data" props) by done.
  split; [done|]. split; [|split].
  - unfold displayPerformance, js_or. by rewrite Hlive, Htruthy.
  - destruct (run_polls polls w1) as (w2 & Hrun & Hl & Hp).
    exists w2. split; [done|]. split; [done|].
    unfold displayPerformance, js_or. by rewrite Hl, Hlive, Htruthy.
  - intros a Ha. unfold displayPerformance, js_or. by rewrite Ha.
Qed.

Lemma pushed_performance_stays_displayed_witness :
  displayPerformance
    (app (fst (handleWebSocketMessage (envelope "performance" (performanceWith 120))
                                      (mount true))))
  = performanceWith 120.
Proof.
  apply (pushed_performance_stays_displayed (mount true)
           [("type", JStr "performance"); ("data", performanceWith 120)]
           [performanceWith 75]);
    reflexivity.
Defined.

(** C1 (as stated) fails: after the push of a snapshot with total 120 a
    poll completes with total 75, and the display still shows 120. *)
Lemma polled_performance_does_not_take_over :
  displayedAfter
    [WsOpen 0; WsMessage 0 (Decoded (envelope "performance" (performanceWith 120)));
     PerformanceFetched (performanceWith 75)]
    (mount true)
  <> Some (performanceWith 75).
Proof. vm_compute. discriminate. Qed.

Lemma onmessage_total w f :
  snd (onmessage f w) = inr tt
  /\ hook (fst (onmessage f w)) = hook w
  /\ sockets (fst (onmessage f w)) = sockets w
  /\ timers (fst (onmessage f w)) = timers w
  /\ uncaught (fst (onmessage f w)) = uncaught w.
Proof.
  destruct f as [raw|message]; [by exec|].
  destruct message as [| | | | | |props]; exec; try done.
  destruct (is_str (lookup_prop "type" props) "signal"); [by exec|].
  destruct (is_str (lookup_prop "type" props) "performance"); [by exec|].
  destruct (is_str (lookup_prop "type" props) "position_update"); by exec.
Qed.

(** What the message handler does with a frame, up to its return: it
    never faults and touches neither the connection state nor a socket or
    timer; a frame that does not decode, or whose tag cannot be read, is
    dropped with a logged error; an envelope with an unknown tag is dropped
    without a log entry; a [signal] envelope is buffered and triggers both
    refetches whatever its payload. *)
Lemma frames_at_handler_return w f :
  (snd (onmessage f w) = inr tt
   /\ hook (fst (onmessage f w)) = hook w
   /\ sockets (fst (onmessage f w)) = sockets w
   /\ timers (fst (onmessage f w)) = timers w)
  /\ (forall raw, f = Undecodable raw -> droppedWithWarning w f)
  /\ (forall message e, f = Decoded message ->
        get_prop message "type" = inl e -> droppedWithWarning w f)
  /\ (forall message type, f = Decoded message ->
        get_prop message "type" = inr type -> knownTag type = false ->
        droppedSilently w f)
  /\ (forall props, f = Decoded (JObj props) ->
        lookup_prop "type" props = JStr "signal" ->
        let w' := fst (onmessage f w) in
        liveSignals (app w') = take 50 (lookup_prop "data" props :: liveSignals (app w))
        /\ refetchPositionsCalls w' = S (refetchPositionsCalls w)
        /\ refetchTradesCalls w' = S (refetchTradesCalls w)
        /\ console w' = console w).
Proof.
  split; [|split; [|split; [|split]]].
  - destruct (onmessage_total w f) as (? & ? & ? & ? & _). done.
  - intros raw ->. unfold droppedWithWarning. exec. repeat split. by eexists.
  - intros message e -> He. unfold droppedWithWarning.
    unfold onmessage, onMessage, try_catch, bind, JSON_parse, ret, countOnMessage, modify.
    rewrite (handle_no_tag _ _ _ He). exec. repeat split. by eexists.
  - intros message type -> Hty Hk. unfold droppedSilently.
    unfold onmessage, onMessage, try_catch, bind, JSON_parse, ret, countOnMessage, modify.
    rewrite (handle_unknown_tag _ _ _ Hty Hk). repeat split.
  - intros props -> Ht.
    unfold onmessage, onMessage, try_catch, bind, JSON_parse, ret, countOnMessage, modify.
    rewrite (handle_signal _ _ Ht). repeat split.
Qed.

(** C3. A malformed envelope should be dropped with a warning and leave
    the channel alone. The frame [{"type":"signal","data":null}] is
    malformed, yet the handler does not drop it: nothing is logged, [null]
    enters the buffer and both refetches are called. The feed then reads
    [signal.ticker] of [null] and its render faults; with the component
    torn down for it, the cleanup closes the socket, and the close event
    finds [onclose] attached and schedules a reconnect. A signal of the
    right shape renders without fault. *)
Theorem malformed_signal_tears_down_channel :
  malformed nullSignalFrame = true
  /\ ~ droppedWithWarning openWorld nullSignalFrame
  /\ renderSignalsFeed 10 [signalWith "GME"] = inr tt
  /\ exists w1 w2,
      step (WsMessage 0 nullSignalFrame) openWorld = Some w1
      /\ console w1 = console openWorld
      /\ liveSignals (app w1) = [JNull]
      /\ refetchPositionsCalls w1 = 1%nat
      /\ refetchTradesCalls w1 = 1%nat
      /\ renderSignalsFeed 10 (liveSignals (app w1))
         = inl (TypeError "Cannot read properties of null")
      /\ run [Unmount; WsClose 0] w1 = Some w2
      /\ sockets w2 = [CLOSED]
      /\ timers w2 = [mkTimer 1000 Pending]
      /\ reconnectTimeoutRef (hook w2) = Some 0%nat.
Proof.
  split; [reflexivity|]. split; [|split; [reflexivity|]].
  - intros (_ & _ & Happ & _). vm_compute in Happ. discriminate.
  - do 2 eexists.
    split; [vm_compute; reflexivity|].
    do 5 (split; [reflexivity|]).
    split; [vm_compute; reflexivity|].
    repeat split.
Qed.

End Reconciliation.

(** ** The reconnecting push channel *)

Section PushChannel.

Implicit Types (w : World) (a : Z) (n : nat).



Lemma backoffDelay_below_cap a : 0 <= a < 5 -> backoffDelay a = 1000 * 2 ^ a.
Proof.
  intros Ha. unfold backoffDelay.
  assert (2 ^ a <= 2 ^ 4) by (apply Z.pow_le_mono_r; lia).
  change (2 ^ 4) with 16 in *. lia.
Qed.

Lemma backoffDelay_at_cap a : 5 <= a -> backoffDelay a = 30000.
Proof.
  intros Ha. unfold backoffDelay.
  assert (2 ^ 5 <= 2 ^ a) by (apply Z.pow_le_mono_r; lia).
  change (2 ^ 5) with 32 in *. lia.
Qed.

(** [onclose] below the ceiling: a timer with the backoff delay. *)
Lemma onclose_retry w :
  reconnectAttemptsRef (hook w) < maxAttempts ->
  onclose w
  = (mkWorld (app w)
       (mkHook false (error (hook w)) (wsRef (hook w)) (Some (length (timers w)))
               (reconnectAttemptsRef (hook w)))
       (sockets w)
       (timers w ++ [mkTimer (backoffDelay (reconnectAttemptsRef (hook w))) Pending])
       ((console w ++ [ConsoleLog "WebSocket disconnected"]) ++ [ConsoleLog "Reconnecting..."])
       (refetchPositionsCalls w) (refetchTradesCalls w) (onMessageCalls w)
       (uncaught w) (urlOk w) (unmounted w),
     inr tt).
Proof.
  intros Ha. apply Z.ltb_lt in Ha.
  unfold onclose, bind, gets, console_log, setIsConnected, modify. simpl.
  rewrite Ha. unfold setTimeout, set_reconnectTimeoutRef, console_log, modify, bind.
  reflexivity.
Qed.

(** [onclose] at the ceiling: no timer, the terminal error. *)
Lemma onclose_give_up w :
  maxAttempts <= reconnectAttemptsRef (hook w) ->
  onclose w
  = (mkWorld (app w)
       (mkHook false (Some "Failed to connect after multiple attempts")
               (wsRef (hook w)) (reconnectTimeoutRef (hook w))
               (reconnectAttemptsRef (hook w)))
       (sockets w) (timers w)
       (console w ++ [ConsoleLog "WebSocket disconnected"])
       (refetchPositionsCalls w) (refetchTradesCalls w) (onMessageCalls w)
       (uncaught w) (urlOk w) (unmounted w),
     inr tt).
Proof.
  intros Ha. apply Z.ltb_ge in Ha.
  unfold onclose, bind, gets, console_log, setIsConnected, modify. simpl.
  by rewrite Ha.
Qed.

(** The timer's callback: one more attempt, one more socket. *)
Lemma reconnect_connects w :
  urlOk w = true ->
  reconnect w
  = (mkWorld (app w)
       (mkHook (isConnected (hook w)) (error (hook w)) (Some (length (sockets w)))
               (reconnectTimeoutRef (hook w)) (reconnectAttemptsRef (hook w) + 1))
       (sockets w ++ [CONNECTING]) (timers w) (console w)
       (refetchPositionsCalls w) (refetchTradesCalls w) (onMessageCalls w)
       (uncaught w) (urlOk w) (unmounted w),
     inr tt).
Proof.
  intros Hurl.
  unfold reconnect, connect, try_catch, bind, gets, set_reconnectAttemptsRef,
    new_WebSocket, set_wsRef, modify.
  simpl. rewrite Hurl. unfold with_hook, with_sockets. simpl. by rewrite Hurl.
Qed.




Lemma open_resets_attempts w ws w' :
  step (WsOpen ws) w = Some w' -> reconnectAttemptsRef (hook w') = 0.
Proof.
  unfold step. destruct (sockets w !! ws) as [[]|]; try done.
  intros [= <-]. reflexivity.
Qed.

(** In a quiescent world the platform has no channel event to deliver. *)
Lemma quiescent_no_channel_event w e :
  quiescent w -> isChannelEvent e = true -> step e w = None.
Proof.
  intros [Hs Ht] He.
  destruct e as [ws|ws f|ws|ws|t| | | |]; try done; unfold step.
  1-4: destruct (sockets w !! ws) as [st|] eqn:E; [|done];
       rewrite (Forall_lookup_1 _ _ _ _ Hs E); done.
  destruct (timers w !! t) as [[d st]|] eqn:E; [|done].
  pose proof (Forall_lookup_1 _ _ _ _ Ht E) as Hst. simpl in Hst.
  by destruct st.
Qed.

Lemma cleanup_quiescent w :
  quiescent w ->
  timers (with_unmounted true (dispatch cleanup w)) = timers w
  /\ sockets (with_unmounted true (dispatch cleanup w)) = sockets w.
Proof.
  intros [Hs Ht].
  assert (Hnp : forall t d, timers w !! t <> Some (mkTimer d Pending)).
  { intros t d E. by pose proof (Forall_lookup_1 _ _ _ _ Ht E). }
  assert (Hcl : forall ws st, sockets w !! ws = Some st -> st = CLOSED).
  { intros ws st E. exact (Forall_lookup_1 _ _ _ _ Hs E). }
  unfold dispatch, cleanup, bind, gets, ret, clearTimeout, ws_close, modify.
  simpl.
  destruct (reconnectTimeoutRef (hook w)) as [t|]; simpl;
    destruct (wsRef (hook w)) as [ws|]; simpl;
    try (destruct (timers w !! t) as [[d []]|] eqn:Et; simpl;
         try (by apply Hnp in Et));
    try (destruct (sockets w !! ws) as [st|] eqn:Es; simpl;
         [apply Hcl in Es as ->|]);
    done.
Qed.




(** What the cleanup does for the timer and the socket that the refs name:
    the timer is no longer pending, the socket is closing or closed. *)
Lemma cleanup_cancels_and_closes w :
  let w' := dispatch cleanup w in
  (forall t tm, reconnectTimeoutRef (hook w) = Some t ->
                timers w' !! t = Some tm -> status tm <> Pending)
  /\ (forall ws st, wsRef (hook w) = Some ws ->
                    sockets w' !! ws = Some st -> st = CLOSING \/ st = CLOSED).
Proof.
  unfold dispatch, cleanup, bind, gets, ret, clearTimeout, ws_close, modify.
  destruct (reconnectTimeoutRef (hook w)) as [t0|]; simpl;
    destruct (wsRef (hook w)) as [ws0|]; simpl;
    (split; [intros t tm Ht Hlk|intros ws st Hws Hlk]); simplify_eq.
  all: try (destruct (timers w !! t) as [[d []]|] eqn:E;
            try (rewrite list_lookup_insert_eq in Hlk by (by eapply lookup_lt_Some));
            by simplify_eq/=).
  all: destruct (sockets w !! ws) as [[]|] eqn:E;
    try (rewrite list_lookup_insert_eq in Hlk by (by eapply lookup_lt_Some));
    simplify_eq; auto.
Qed.

(** C9. The socket is open when the component is torn down. The cleanup
    closes it and no callback has fired. Then the close event of that
    socket runs [onclose], which schedules a reconnect (the counter is 0);
    the timer fires and connects; the new socket opens and delivers a
    frame: the subscriber callback is called, and calls the refetch of
    positions, although the component was torn down before. *)
Theorem callback_fires_after_teardown :
  exists w1 w2,
    run teardownWhileOpen (mount true) = Some w1
    /\ unmounted w1 = true
    /\ sockets w1 = [CLOSING]
    /\ timers w1 = []
    /\ onMessageCalls w1 = 0%nat
    /\ run afterTeardown w1 = Some w2
    /\ unmounted w2 = true
    /\ sockets w2 = [CLOSED; OPEN]
    /\ timers w2 = [mkTimer 1000 Fired]
    /\ onMessageCalls w2 = 1%nat
    /\ refetchPositionsCalls w2 = 1%nat.
Proof.
  do 2 eexists.
  split; [vm_compute; reflexivity|].
  do 4 (split; [reflexivity|]).
  split; [vm_compute; reflexivity|].
  repeat split.
Qed.

End PushChannel.

(** * Further properties of the components *)

(** ** The series of the chart *)

Section ChartSeries.

Implicit Types (t : Trade.t) (ts : list Trade.t) (acc : list ChartDataPoint).

Lemma sort_insert_sorted t l :
  StronglySorted notLater l -> StronglySorted notLater (sort_insert byTimestamp t l).
Proof.
  induction 1 as [|y l Hl IH Hy]; simpl; [by repeat constructor|].
  unfold byTimestamp at 1.
  destruct (Z.leb_spec (Trade.timestamp t - Trade.timestamp y) 0) as [Hle|Hgt].
  - constructor; [by constructor|].
    constructor; [unfold notLater; lia|].
    eapply Forall_impl; [exact Hy|]. unfold notLater. intros z Hz. lia.
  - constructor; [done|].
    rewrite sort_insert_perm. constructor; [unfold notLater; lia|done].
Qed.

Lemma js_sort_sorted l : StronglySorted notLater (js_sort byTimestamp l).
Proof.
  induction l as [|t l IH]; simpl; [constructor|].
  by apply sort_insert_sorted.
Qed.

Lemma foldl_pushPoint_runningFrom ts : forall acc,
  foldl pushPoint acc ts = acc ++ runningFrom (finalTotal acc) ts.
Proof.
  induction ts as [|t ts IH]; intros acc; simpl; [by rewrite app_nil_r|].
  rewrite IH, pushPoint_total. unfold pushPoint at 1.
  by rewrite <- app_assoc.
Qed.

Lemma chartData_runningFrom ts : chartData ts = runningFrom 0 (chartTrades ts).
Proof. unfold chartData. by rewrite foldl_pushPoint_runningFrom. Qed.

Lemma runningFrom_timestamps l : forall total,
  timestamp <$> runningFrom total l = Trade.timestamp <$> l.
Proof. induction l as [|t l IH]; intros total; simpl; [done|]. by rewrite IH. Qed.

Lemma runningFrom_lookup l : forall k total,
  runningFrom total l !! k
  = (fun t => mkPoint (Trade.timestamp t)
                      (total + sumZ (pnl_or_zero <$> take (S k) l))) <$> l !! k.
Proof.
  induction l as [|t l IH]; intros k total; [done|].
  destruct k as [|k]; simpl.
  - do 2 f_equal. destruct l; simpl; lia.
  - rewrite IH. destruct (l !! k) as [x|] eqn:E; simpl; [|done].
    do 2 f_equal. rewrite <- Z.add_assoc. reflexivity.
Qed.

Lemma StronglySorted_lookup_le {A : Type} (R : A -> A -> Prop) (l : list A) :
  StronglySorted R l ->
  forall i j x y, (i < j)%nat -> l !! i = Some x -> l !! j = Some y -> R x y.
Proof.
  induction 1 as [|a l Hl IH Ha]; intros i j x y Hij Hi Hj; [done|].
  destruct j as [|j]; [lia|]. destruct i as [|i]; simpl in *.
  - simplify_eq. eapply Forall_lookup_1; [exact Ha|exact Hj].
  - eapply (IH i j); [lia|done..].
Qed.

Lemma chartTrades_perm ts : chartTrades ts ≡ₚ List.filter pnl_not_undefined ts.
Proof. apply js_sort_perm. Qed.

(** X1. The points of the series stand in the order of time: a point never
    has an earlier instant than a point before it. *)
Theorem chartData_in_time_order ts (i j : nat) (p q : ChartDataPoint) :
  (i <= j)%nat ->
  chartData ts !! i = Some p ->
  chartData ts !! j = Some q ->
  timestamp p <= timestamp q.
Proof.
  intros Hij Hp Hq.
  destruct (decide (i = j)) as [->|Hne]; [simplify_eq; lia|].
  rewrite chartData_runningFrom, runningFrom_lookup in Hp, Hq.
  destruct (chartTrades ts !! i) as [a|] eqn:Ea; [|done].
  destruct (chartTrades ts !! j) as [b|] eqn:Eb; [|done].
  simplify_eq/=.
  apply (StronglySorted_lookup_le notLater (chartTrades ts) (js_sort_sorted _) i j a b);
    [lia|done..].
Qed.

Lemma chartData_in_time_order_witness :
  timestamp (mkPoint 1 0) <= timestamp (mkPoint 3 6).
Proof.
  apply (chartData_in_time_order
           [tradeAt 3 (Num (-4)); tradeAt 1 Null; tradeAt 2 (Num 10)] 0 2);
    [lia|reflexivity|reflexivity].
Defined.

Lemma runningFrom_lookup_foldl l : forall k total,
  runningFrom total l !! k
  = (fun t => mkPoint (Trade.timestamp t)
                      (foldl (fun sum t' => sum + pnl_or_zero t') total (take (S k) l)))
      <$> l !! k.
Proof.
  induction l as [|t l IH]; intros k total; [done|].
  destruct k as [|k]; [by destruct l|].
  cbn [runningFrom lookup list_lookup]. rewrite IH. done.
Qed.

Lemma sort_insert_stable (v : Z) t l :
  List.filter (fun x => Trade.timestamp x =? v) (sort_insert byTimestamp t l)
  = List.filter (fun x => Trade.timestamp x =? v) (t :: l).
Proof.
  induction l as [|y l IH]; [done|].
  cbn [sort_insert]. unfold byTimestamp at 1.
  destruct (Z.leb_spec (Trade.timestamp t - Trade.timestamp y) 0) as [Hle|Hgt]; [done|].
  cbn [List.filter] in *. rewrite IH.
  destruct (Z.eqb_spec (Trade.timestamp t) v), (Z.eqb_spec (Trade.timestamp y) v);
    try done; lia.
Qed.

Lemma js_sort_stable (v : Z) l :
  List.filter (fun x => Trade.timestamp x =? v) (js_sort byTimestamp l)
  = List.filter (fun x => Trade.timestamp x =? v) l.
Proof.
  induction l as [|t l IH]; [done|].
  cbn [js_sort foldr]. rewrite sort_insert_stable.
  cbn [List.filter]. fold (js_sort byTimestamp l). by rewrite IH.
Qed.

(** X2. The trades of the series are the trades that pass the filter, put
    in the order of time, trades of one instant keeping the order in which
    they were given; the point number [k] carries the instant of the trade
    number [k] of that order and the total obtained by adding, from 0 and
    in that order, the realized P&L of the trades up to and including it. *)
Theorem chartData_running_sums ts (k : nat) :
  StronglySorted notLater (chartTrades ts)
  /\ chartTrades ts ≡ₚ List.filter pnl_not_undefined ts
  /\ (forall v,
        List.filter (fun t => Trade.timestamp t =? v) (chartTrades ts)
        = List.filter (fun t => Trade.timestamp t =? v)
                      (List.filter pnl_not_undefined ts))
  /\ chartData ts !! k
     = (fun t => mkPoint (Trade.timestamp t)
                         (foldl (fun sum t' => sum + pnl_or_zero t') 0
                                (take (S k) (chartTrades ts))))
         <$> chartTrades ts !! k.
Proof.
  split; [apply js_sort_sorted|]. split; [apply chartTrades_perm|].
  split; [intros v; apply js_sort_stable|].
  by rewrite chartData_runningFrom, runningFrom_lookup_foldl.
Qed.

(** X3. The chart gives way to its empty-state text exactly when no trade
    has the key [realized_pnl]; in particular for no trades at all. *)
Theorem chartIsEmpty_iff ts :
  chartIsEmpty ts = true <-> Forall (fun t => Trade.realized_pnl t = Absent) ts.
Proof.
  unfold chartIsEmpty. rewrite Nat.eqb_eq, chartData_length.
  induction ts as [|t ts IH]; simpl; [by split|].
  unfold pnl_not_undefined at 1.
  destruct (Trade.realized_pnl t) eqn:E; simpl.
  - rewrite IH. split; [by constructor|by inv 1].
  - split; [done|]. inv 1. congruence.
  - split; [done|]. inv 1. congruence.
Qed.

Lemma chartIsEmpty_iff_witness :
  chartIsEmpty [tradeAt 1 Absent; tradeAt 2 Absent] = true.
Proof.
  apply (chartIsEmpty_iff [tradeAt 1 Absent; tradeAt 2 Absent]).
  repeat constructor.
Defined.

Lemma key_injective_on (l : list Trade.t) (a b : Trade.t) :
  NoDup (Trade.timestamp <$> l) -> a ∈ l -> b ∈ l ->
  Trade.timestamp a = Trade.timestamp b -> a = b.
Proof.
  induction l as [|x l IH]; intros Hnd Ha Hb Hk; [by apply not_elem_of_nil in Ha|].
  rewrite fmap_cons in Hnd. apply NoDup_cons in Hnd as [Hx Hnd].
  apply elem_of_cons in Ha as [->|Ha]; apply elem_of_cons in Hb as [->|Hb].
  - done.
  - exfalso. apply Hx. rewrite Hk. by apply list_elem_of_fmap_2.
  - exfalso. apply Hx. rewrite <- Hk. by apply list_elem_of_fmap_2.
  - by apply IH.
Qed.

(** X4. When the trades that pass the filter have pairwise distinct
    instants, the series does not depend on the order in which the trades
    are given: every permutation of the trades yields the same series. *)
Theorem chartData_order_independent ts ts' :
  NoDup (Trade.timestamp <$> List.filter pnl_not_undefined ts) ->
  ts ≡ₚ ts' ->
  chartData ts' = chartData ts.
Proof.
  intros Hnd Hp. rewrite !chartData_runningFrom. f_equal.
  assert (Hperm : chartTrades ts' ≡ₚ chartTrades ts).
  { rewrite !chartTrades_perm. by apply filter_perm. }
  apply (StronglySorted_unique_strong notLater); [|apply js_sort_sorted..|done].
  intros a b Ha Hb Hab Hba.
  rewrite Hperm in Ha. rewrite chartTrades_perm in Ha, Hb.
  eapply key_injective_on; [exact Hnd|done..|].
  unfold notLater in *. lia.
Qed.

Lemma chartData_order_independent_witness :
  chartData [tradeAt 3 (Num (-4)); tradeAt 1 Absent; tradeAt 2 (Num 10)]
  = chartData [tradeAt 1 Absent; tradeAt 2 (Num 10); tradeAt 3 (Num (-4))].
Proof.
  apply (chartData_order_independent
           [tradeAt 1 Absent; tradeAt 2 (Num 10); tradeAt 3 (Num (-4))]).
  - apply (bool_decide_unpack _). vm_compute. exact I.
  - apply (Permutation_app_comm [tradeAt 1 Absent; tradeAt 2 (Num 10)]
                                [tradeAt 3 (Num (-4))]).
Defined.

End ChartSeries.

(** ** The positions table *)

Section PositionsTable.

Implicit Types (ps : list Position.t).

Lemma sumZ_cons (x : Z) (xs : list Z) : sumZ (x :: xs) = x + sumZ xs.
Proof. reflexivity. Qed.

Lemma foldl_unrealized ps : forall sum,
  foldl (fun sum pos => sum + Position.unrealized_pnl pos) sum ps
  = sum + sumZ (Position.unrealized_pnl <$> ps).
Proof.
  induction ps as [|p ps IH]; intros sum; [simpl; lia|].
  cbn [foldl]. rewrite IH, fmap_cons, sumZ_cons. lia.
Qed.

Lemma totalUnrealizedPnL_sum ps :
  totalUnrealizedPnL ps = sumZ (Position.unrealized_pnl <$> ps).
Proof. unfold totalUnrealizedPnL. by rewrite foldl_unrealized. Qed.

Lemma pnlClass_positive v : pnlClass v = "positive" <-> 0 <= v.
Proof.
  unfold pnlClass. rewrite Z.geb_leb.
  destruct (Z.leb_spec 0 v); split; try done; lia.
Qed.

Lemma pnlClass_negative v : pnlClass v = "negative" <-> v < 0.
Proof.
  unfold pnlClass. rewrite Z.geb_leb.
  destruct (Z.leb_spec 0 v); split; try done; lia.
Qed.

(** X7. The colour of the header agrees with the rows when they agree
    among themselves: if every row is positive so is the header, if every
    row is negative and there is one so is the header; with no position the
    header shows a total of 0 as positive. *)
Theorem headerClass_agrees_with_rows ps :
  (Forall (fun p => rowClass p = "positive") ps -> headerClass ps = "positive")
  /\ (ps <> [] -> Forall (fun p => rowClass p = "negative") ps ->
      headerClass ps = "negative")
  /\ (ps = [] -> totalUnrealizedPnL ps = 0 /\ headerClass ps = "positive").
Proof.
  unfold headerClass, rowClass. rewrite totalUnrealizedPnL_sum.
  split; [|split].
  - intros Hall. apply pnlClass_positive.
    induction Hall as [|p ps Hp _ IH]; [done|].
    apply pnlClass_positive in Hp. rewrite fmap_cons, sumZ_cons. lia.
  - intros Hne Hall. apply pnlClass_negative.
    destruct Hall as [|p ps Hp Hall]; [done|]. clear Hne.
    apply pnlClass_negative in Hp.
    assert (Hrest : sumZ (Position.unrealized_pnl <$> ps) <= 0).
    { induction Hall as [|q ps Hq _ IH]; [done|].
      apply pnlClass_negative in Hq. rewrite fmap_cons, sumZ_cons. lia. }
    rewrite fmap_cons, sumZ_cons. lia.
  - by intros ->.
Qed.

Lemma headerClass_agrees_with_rows_witness :
  headerClass [positionIn "NVDA"; positionIn "AMD"] = "positive"
  /\ headerClass [Position.mk 1 "GME" 1 100 90 (-10) (-10) 0] = "negative"
  /\ headerClass [] = "positive".
Proof.
  split; [|split].
  - destruct (headerClass_agrees_with_rows [positionIn "NVDA"; positionIn "AMD"])
      as (H & _).
    apply H. by repeat constructor.
  - destruct (headerClass_agrees_with_rows [Position.mk 1 "GME" 1 100 90 (-10) (-10) 0])
      as (_ & H & _).
    apply H; [done|]. by repeat constructor.
  - destruct (headerClass_agrees_with_rows []) as (_ & _ & H).
    by apply H.
Defined.

End PositionsTable.

(** ** The ticker selector *)

Section TickerSelector.

Implicit Types (positions : list Position.t) (trades : list Trade.t).

Lemma defaults_in_keepFirst positions trades x :
  x ∈ defaultTickers -> x ∈ keepFirst (tickerCandidates positions trades).
Proof.
  intros Hx. apply elem_of_keepFirst. unfold tickerCandidates.
  rewrite !elem_of_app. auto.
Qed.

(** X8. There are always between 3 and 10 active tickers, so the guard
    [uniqueTickers.length > 0] of the sentiment chart never fails. *)
Theorem uniqueTickers_between_3_and_10 positions trades :
  (3 <= length (uniqueTickers positions trades) <= 10)%nat
  /\ uniqueTickers positions trades <> [].
Proof.
  assert (Hlen : (3 <= length (uniqueTickers positions trades) <= 10)%nat).
  { unfold uniqueTickers, slice0. rewrite arrayFromSet_keepFirst, length_take.
    assert (H3 : (length defaultTickers
                  <= length (keepFirst (tickerCandidates positions trades)))%nat).
    { apply submseteq_length, NoDup_submseteq.
      - apply (bool_decide_unpack _). vm_compute. exact I.
      - intros x. apply defaults_in_keepFirst. }
    simpl in H3. lia. }
  split; [done|]. intros E. rewrite E in Hlen. simpl in Hlen. lia.
Qed.

(** X9. On the first render of [App] no positions and no trades are
    loaded, so the tickers are exactly AAPL, TSLA, GME and the selector of
    the sentiment chart, whose state is initialised on that render, starts
    on AAPL: never on the empty string, so the sentiment query is enabled.
    On later renders AAPL is among the options offered whenever there are
    at most 10 distinct candidates; with ten positions in distinct tickers
    other than the defaults it is not among them. *)
Theorem selector_starts_on_AAPL (url_ok : bool)
    (ps : list Position.t) (ts : list Trade.t) :
  uniqueTickers (positions (app (mount url_ok))) (trades (app (mount url_ok)))
  = ["AAPL"; "TSLA"; "GME"]
  /\ initialSelectedTicker
       (uniqueTickers (positions (app (mount url_ok))) (trades (app (mount url_ok))))
     = "AAPL"
  /\ ((length (keepFirst (tickerCandidates ps ts)) <= 10)%nat ->
      "AAPL" ∈ uniqueTickers ps ts)
  /\ "AAPL" ∉ uniqueTickers tenPositions ts.
Proof.
  split; [by destruct url_ok|]. split; [by destruct url_ok|]. split.
  - intros Hlen. unfold uniqueTickers, slice0.
    rewrite arrayFromSet_keepFirst, take_ge by done.
    apply defaults_in_keepFirst. repeat constructor.
  - unfold uniqueTickers, tickerCandidates, slice0.
    rewrite arrayFromSet_keepFirst, keepFirst_app, take_app.
    replace (10 - length (keepFirst (map Position.ticker tenPositions)))%nat
      with 0%nat by (vm_compute; lia).
    rewrite take_0, app_nil_r.
    apply (bool_decide_unpack _). vm_compute. exact I.
Qed.

Lemma selector_starts_on_AAPL_witness :
  "AAPL" ∈ uniqueTickers [positionIn "NVDA"] [tradeAt 1 Absent].
Proof.
  destruct (selector_starts_on_AAPL true [positionIn "NVDA"] [tradeAt 1 Absent])
    as (_ & _ & H & _).
  apply H. vm_compute. lia.
Defined.

End TickerSelector.

(** ** Envelopes in sequence *)

Section Envelopes.

Implicit Types (w : World) (props : list (string * jsvalue)) (sigs buf : list jsvalue).

Lemma take_app_take {A : Type} (n : nat) (xs ys : list A) :
  take n (xs ++ take n ys) = take n (xs ++ ys).
Proof. rewrite !take_app, take_take. do 2 f_equal. lia. Qed.

Lemma foldl_bufferInsert capacity sigs : forall buf,
  (length buf <= capacity)%nat ->
  foldl (fun buffer signal => bufferInsert capacity signal buffer) buf sigs
  = take capacity (reverse sigs ++ buf).
Proof.
  induction sigs as [|s sigs IH]; intros buf Hlen.
  - simpl. by rewrite take_ge.
  - cbn [foldl]. rewrite IH by (rewrite bufferInsert_length; lia).
    unfold bufferInsert, slice0.
    rewrite take_app_take, reverse_cons, <- app_assoc. done.
Qed.

Lemma receive_signals sigs : forall w,
  liveSignals (app (receive (envelope "signal" <$> sigs) w))
  = foldl (fun buffer signal => bufferInsert 50 signal buffer)
          (liveSignals (app w)) sigs.
Proof.
  induction sigs as [|s sigs IH]; intros w; [done|].
  unfold receive in *. rewrite fmap_cons. cbn [foldl].
  rewrite IH. unfold envelope. by rewrite handle_signal.
Qed.

(** X10. After any number of signals the buffer holds the 50 most recent
    ones, the newest first, and the feed of [App] shows the 10 most recent
    of them; the buffer with bound [capacity], filled from empty, holds the
    [capacity] most recent ones. *)
Theorem signals_newest_first w sigs (capacity : nat) :
  (length (liveSignals (app w)) <= 50)%nat ->
  let w' := receive (envelope "signal" <$> sigs) w in
  liveSignals (app w') = take 50 (reverse sigs ++ liveSignals (app w))
  /\ displaySignals 10 (liveSignals (app w'))
     = take 10 (reverse sigs ++ liveSignals (app w))
  /\ bufferAfter capacity sigs = take capacity (reverse sigs).
Proof.
  intros Hlen w'. subst w'.
  rewrite receive_signals, foldl_bufferInsert by done.
  split; [done|]. split.
  - unfold displaySignals, slice0. by rewrite take_take.
  - unfold bufferAfter. rewrite foldl_bufferInsert by (simpl; lia).
    by rewrite app_nil_r.
Qed.

Lemma signals_newest_first_witness :
  liveSignals (app (receive (envelope "signal" <$> [JStr "S1"; JStr "S2"]) (mount true)))
  = take 50 (reverse [JStr "S1"; JStr "S2"] ++ []).
Proof.
  apply (signals_newest_first (mount true) [JStr "S1"; JStr "S2"] 3).
  simpl. lia.
Defined.

(** X12. A [performance] envelope replaces the live performance and does
    nothing else: it calls no refetch and leaves the signal buffer, the
    three polled snapshots, the connection state and the console as they
    were. *)
Theorem performance_envelope_touches_only_live_value w props :
  lookup_prop "type" props = JStr "performance" ->
  let w' := fst (handleWebSocketMessage (JObj props) w) in
  snd (handleWebSocketMessage (JObj props) w) = inr tt
  /\ livePerformance (app w') = lookup_prop "data" props
  /\ refetchPositionsCalls w' = refetchPositionsCalls w
  /\ refetchTradesCalls w' = refetchTradesCalls w
  /\ liveSignals (app w') = liveSignals (app w)
  /\ positions (app w') = positions (app w)
  /\ trades (app w') = trades (app w)
  /\ performance (app w') = performance (app w)
  /\ hook w' = hook w /\ sockets w' = sockets w /\ timers w' = timers w
  /\ console w' = console w.
Proof.
  intros Ht w'. subst w'. rewrite (handle_performance _ _ Ht). repeat split.
Qed.

Lemma performance_envelope_touches_only_live_value_witness :
  refetchPositionsCalls
    (fst (handleWebSocketMessage (envelope "performance" (performanceWith 120))
                                 (mount true))) = 0%nat.
Proof.
  apply (performance_envelope_touches_only_live_value (mount true)
           [("type", JStr "performance"); ("data", performanceWith 120)]).
  reflexivity.
Defined.

(** X14. A [performance] envelope whose payload is missing, [null] or
    otherwise falsy clears the live value: the display falls back to the
    polled snapshot. *)
Theorem falsy_performance_payload_shows_polled w props :
  lookup_prop "type" props = JStr "performance" ->
  truthy (lookup_prop "data" props) = false ->
  displayPerformance (app (fst (handleWebSocketMessage (JObj props) w)))
  = performance (app w).
Proof.
  intros Ht Hf. rewrite (handle_performance _ _ Ht).
  unfold displayPerformance, js_or. simpl. by rewrite Hf.
Qed.

Lemma falsy_performance_payload_shows_polled_witness :
  displayPerformance
    (app (fst (handleWebSocketMessage (JObj [("type", JStr "performance")]) (mount true))))
  = JUndefined.
Proof.
  apply (falsy_performance_payload_shows_polled (mount true)
           [("type", JStr "performance")]);
    reflexivity.
Defined.

Lemma is_str_true (v : jsvalue) (lit : string) : is_str v lit = true <-> v = JStr lit.
Proof.
  destruct v; simpl; try (split; congruence).
  destruct (String.eqb_spec s lit); split; congruence.
Qed.

(** What one envelope adds to the two refetch counters. *)
Lemma handle_refetches (message : jsvalue) w :
  refetchPositionsCalls (fst (handleWebSocketMessage message w))
  = (refetchPositionsCalls w
     + (if is_str (tagOf message) "signal" then 1 else 0)
     + (if is_str (tagOf message) "position_update" then 1 else 0))%nat
  /\ refetchTradesCalls (fst (handleWebSocketMessage message w))
     = (refetchTradesCalls w + (if is_str (tagOf message) "signal" then 1 else 0))%nat.
Proof.
  unfold tagOf.
  destruct (get_prop message "type") as [e|type] eqn:Hg.
  { rewrite (handle_no_tag _ _ _ Hg). simpl. lia. }
  destruct (knownTag type) eqn:Hk.
  2:{ rewrite (handle_unknown_tag _ _ _ Hg Hk). unfold knownTag in Hk.
      apply orb_false_iff in Hk as [Hk H3]. apply orb_false_iff in Hk as [H1 H2].
      rewrite H1, H3. simpl. lia. }
  destruct message as [| | | | | |props]; simpl in Hg; simplify_eq.
  unfold knownTag in Hk.
  destruct (is_str (lookup_prop "type" props) "signal") eqn:H1.
  { apply is_str_true in H1. rewrite (handle_signal _ _ H1), H1. simpl. lia. }
  destruct (is_str (lookup_prop "type" props) "performance") eqn:H2.
  { apply is_str_true in H2. rewrite (handle_performance _ _ H2), H2. simpl. lia. }
  destruct (is_str (lookup_prop "type" props) "position_update") eqn:H3; [|done].
  apply is_str_true in H3. rewrite (handle_position_update _ _ H3). simpl. lia.
Qed.

(** X13. After any sequence of frames that decode, well-formed or not, the
    refetch of positions has been called once per [signal] and once per
    [position_update] envelope, the refetch of trades once per [signal]
    envelope. *)
Theorem refetches_count_envelopes (messages : list jsvalue) w :
  refetchPositionsCalls (receive messages w)
  = (refetchPositionsCalls w + countTag "signal" messages
     + countTag "position_update" messages)%nat
  /\ refetchTradesCalls (receive messages w)
     = (refetchTradesCalls w + countTag "signal" messages)%nat.
Proof.
  revert w. induction messages as [|m messages IH]; intros w.
  - unfold countTag. simpl. lia.
  - unfold receive in *. cbn [foldl].
    destruct (IH (fst (handleWebSocketMessage m w))) as [IHp IHt].
    destruct (handle_refetches m w) as [Hp Ht].
    rewrite IHp, IHt, Hp, Ht. unfold countTag. cbn [List.filter].
    destruct (is_str (tagOf m) "signal"), (is_str (tagOf m) "position_update");
      cbn [length]; lia.
Qed.

End Envelopes.

(** ** What holds in every world the client can be in *)

Section Reachable.

Implicit Types (w : World) (e : event).

Lemma reachable_invariant (P : World -> Prop) :
  (forall url_ok, P (mount url_ok)) ->
  (forall e w w', P w -> step e w = Some w' -> P w') ->
  forall w, reachable w -> P w.
Proof.
  intros Hinit Hstep w (url_ok & es & Hrun).
  revert Hrun. generalize (Hinit url_ok). generalize (mount url_ok).
  induction es as [|e es IH]; intros w0 H0 Hrun; simpl in Hrun.
  - by simplify_eq.
  - destruct (step e w0) as [w1|] eqn:E; [|done].
    eapply IH; [|exact Hrun]. by eapply Hstep.
Qed.

Lemma dispatch_ok (handler : M unit) w w' :
  handler w = (w', inr tt) -> dispatch handler w = w'.
Proof. unfold dispatch. by intros ->. Qed.

Lemma onopen_eq w :
  onopen w
  = (mkWorld (app w)
       (mkHook true None (wsRef (hook w)) (reconnectTimeoutRef (hook w)) 0)
       (sockets w) (timers w) (console w ++ [ConsoleLog "WebSocket connected"])
       (refetchPositionsCalls w) (refetchTradesCalls w) (onMessageCalls w)
       (uncaught w) (urlOk w) (unmounted w),
     inr tt).
Proof. reflexivity. Qed.

Lemma onerror_eq w :
  onerror w
  = (mkWorld (app w)
       (mkHook (isConnected (hook w)) (Some "WebSocket connection error")
               (wsRef (hook w)) (reconnectTimeoutRef (hook w))
               (reconnectAttemptsRef (hook w)))
       (sockets w) (timers w) (console w ++ [ConsoleError "WebSocket error:"])
       (refetchPositionsCalls w) (refetchTradesCalls w) (onMessageCalls w)
       (uncaught w) (urlOk w) (unmounted w),
     inr tt).
Proof. reflexivity. Qed.

Lemma reconnect_fails w :
  urlOk w = false ->
  reconnect w
  = (mkWorld (app w)
       (mkHook (isConnected (hook w)) (Some "Failed to create WebSocket connection")
               (wsRef (hook w)) (reconnectTimeoutRef (hook w))
               (reconnectAttemptsRef (hook w) + 1))
       (sockets w) (timers w) (console w ++ [ConsoleError "Failed to create WebSocket:"])
       (refetchPositionsCalls w) (refetchTradesCalls w) (onMessageCalls w)
       (uncaught w) (urlOk w) (unmounted w),
     inr tt).
Proof.
  intros Hurl.
  unfold reconnect, connect, try_catch, bind, gets, set_reconnectAttemptsRef,
    new_WebSocket, set_wsRef, console_error, setError, modify.
  simpl. rewrite Hurl. unfold with_hook, with_console. simpl. by rewrite Hurl.
Qed.

Lemma step_open w i w' :
  step (WsOpen i) w = Some w' ->
  sockets w !! i = Some CONNECTING
  /\ sockets w' = <[i := OPEN]> (sockets w)
  /\ timers w' = timers w
  /\ hook w' = mkHook true None (wsRef (hook w)) (reconnectTimeoutRef (hook w)) 0
  /\ uncaught w' = uncaught w
  /\ app w' = app w.
Proof.
  unfold step. destruct (sockets w !! i) as [[]|]; try done.
  intros [= <-]. by rewrite (dispatch_ok _ _ _ (onopen_eq _)).
Qed.

Lemma step_message w i f w' :
  step (WsMessage i f) w = Some w' ->
  sockets w !! i = Some OPEN
  /\ w' = fst (onmessage f w)
  /\ sockets w' = sockets w
  /\ timers w' = timers w
  /\ hook w' = hook w
  /\ uncaught w' = uncaught w.
Proof.
  unfold step. destruct (sockets w !! i) as [[]|]; try done.
  intros [= <-].
  destruct (onmessage_total w f) as (Hok & Hh & Hs & Ht & Hu).
  assert (Hd : dispatch (onmessage f) w = fst (onmessage f w)).
  { unfold dispatch. destruct (onmessage f w) as [w1 r]. simpl in Hok. by subst r. }
  by rewrite Hd.
Qed.

Lemma step_error w i w' :
  step (WsError i) w = Some w' ->
  (exists st, sockets w !! i = Some st /\ st <> CLOSED)
  /\ sockets w' = sockets w
  /\ timers w' = timers w
  /\ hook w' = mkHook (isConnected (hook w)) (Some "WebSocket connection error")
                      (wsRef (hook w)) (reconnectTimeoutRef (hook w))
                      (reconnectAttemptsRef (hook w))
  /\ uncaught w' = uncaught w
  /\ app w' = app w.
Proof.
  unfold step. destruct (sockets w !! i) as [st|]; [|done].
  destruct st; try done; intros [= <-];
    rewrite (dispatch_ok _ _ _ (onerror_eq _)); repeat split; by eexists.
Qed.

Lemma step_close w i w' :
  step (WsClose i) w = Some w' ->
  (exists st, sockets w !! i = Some st /\ st <> CLOSED)
  /\ sockets w' = <[i := CLOSED]> (sockets w)
  /\ uncaught w' = uncaught w
  /\ app w' = app w
  /\ ((reconnectAttemptsRef (hook w) < maxAttempts
       /\ timers w'
          = timers w ++ [mkTimer (backoffDelay (reconnectAttemptsRef (hook w))) Pending]
       /\ hook w' = mkHook false (error (hook w)) (wsRef (hook w))
                           (Some (length (timers w)))
                           (reconnectAttemptsRef (hook w)))
      \/ (maxAttempts <= reconnectAttemptsRef (hook w)
          /\ timers w' = timers w
          /\ hook w' = mkHook false (Some terminalError) (wsRef (hook w))
                              (reconnectTimeoutRef (hook w))
                              (reconnectAttemptsRef (hook w)))).
Proof.
  intros Hstep.
  assert (Hex : exists st, sockets w !! i = Some st /\ st <> CLOSED).
  { unfold step in Hstep. destruct (sockets w !! i) as [[]|]; try done; by eexists. }
  assert (Hw' : w' = dispatch onclose (with_sockets (fun ss => <[i := CLOSED]> ss) w)).
  { unfold step in Hstep. destruct (sockets w !! i) as [[]|]; by simplify_eq. }
  split; [done|]. subst w'.
  destruct (Z.lt_ge_cases (reconnectAttemptsRef (hook w)) maxAttempts) as [Hlt|Hge].
  - rewrite (dispatch_ok _ _ _
               (onclose_retry (with_sockets (fun ss => <[i := CLOSED]> ss) w) Hlt)).
    repeat split. left. done.
  - rewrite (dispatch_ok _ _ _
               (onclose_give_up (with_sockets (fun ss => <[i := CLOSED]> ss) w) Hge)).
    repeat split. right. done.
Qed.

Lemma step_timer w t w' :
  step (TimerFires t) w = Some w' ->
  exists d,
    timers w !! t = Some (mkTimer d Pending)
    /\ timers w' = <[t := mkTimer d Fired]> (timers w)
    /\ uncaught w' = uncaught w
    /\ app w' = app w
    /\ ((urlOk w = true
         /\ sockets w' = sockets w ++ [CONNECTING]
         /\ hook w' = mkHook (isConnected (hook w)) (error (hook w))
                             (Some (length (sockets w)))
                             (reconnectTimeoutRef (hook w))
                             (reconnectAttemptsRef (hook w) + 1))
        \/ (urlOk w = false
            /\ sockets w' = sockets w
            /\ hook w' = mkHook (isConnected (hook w))
                                (Some "Failed to create WebSocket connection")
                                (wsRef (hook w)) (reconnectTimeoutRef (hook w))
                                (reconnectAttemptsRef (hook w) + 1))).
Proof.
  unfold step. destruct (timers w !! t) as [[d []]|]; try done.
  intros [= <-]. exists d. split; [done|].
  destruct (urlOk w) eqn:Hurl.
  - rewrite (dispatch_ok _ _ _
               (reconnect_connects
                  (with_timers (fun ts => <[t := mkTimer d Fired]> ts) w) Hurl)).
    repeat split. by left.
  - rewrite (dispatch_ok _ _ _
               (reconnect_fails
                  (with_timers (fun ts => <[t := mkTimer d Fired]> ts) w) Hurl)).
    repeat split. by right.
Qed.

Lemma step_unmount w w' :
  step Unmount w = Some w' ->
  hook w' = hook w
  /\ uncaught w' = uncaught w
  /\ app w' = app w
  /\ timers w'
     = match reconnectTimeoutRef (hook w) with
       | Some t =>
           match timers w !! t with
           | Some (mkTimer d Pending) => <[t := mkTimer d Cleared]> (timers w)
           | _ => timers w
           end
       | None => timers w
       end
  /\ sockets w'
     = match wsRef (hook w) with
       | Some ws =>
           match sockets w !! ws with
           | Some CONNECTING | Some OPEN => <[ws := CLOSING]> (sockets w)
           | _ => sockets w
           end
       | None => sockets w
       end.
Proof.
  unfold step. destruct (unmounted w); [done|]. intros [= <-].
  unfold dispatch, cleanup, bind, gets, ret, clearTimeout, ws_close, modify.
  destruct (reconnectTimeoutRef (hook w)) as [t|] eqn:Et; simpl;
    destruct (wsRef (hook w)) as [ws|] eqn:Ews; simpl; rewrite ?Et, ?Ews; done.
Qed.

Lemma step_fetch e w w' :
  match e with
  | PositionsFetched _ | TradesFetched _ | PerformanceFetched _ => True
  | _ => False
  end ->
  step e w = Some w' ->
  hook w' = hook w /\ sockets w' = sockets w /\ timers w' = timers w
  /\ uncaught w' = uncaught w /\ liveSignals (app w') = liveSignals (app w).
Proof. destruct e; try done; intros _ [= <-]; done. Qed.

Lemma inv_alive_no_pending w i st :
  channelInv w -> sockets w !! i = Some st -> st <> CLOSED ->
  Forall (fun tm => status tm <> Pending) (timers w).
Proof.
  intros (_ & _ & Ht & _) Hi Hst. apply Forall_lookup. intros t tm Hlk Hp.
  destruct (Ht t tm Hlk Hp) as (_ & _ & Hall).
  by pose proof (Forall_lookup_1 _ _ _ _ Hall Hi).
Qed.

Lemma inv_alive_others_closed w i st :
  channelInv w -> sockets w !! i = Some st -> st <> CLOSED ->
  Forall (fun s => s = CLOSED) (<[i := CLOSED]> (sockets w)).
Proof.
  intros (_ & Hs & _) Hi Hst. apply Forall_lookup. intros j s Hj.
  destruct (decide (j = i)) as [->|Hne].
  - rewrite list_lookup_insert_eq in Hj by (by eapply lookup_lt_Some). congruence.
  - rewrite list_lookup_insert_ne in Hj by done.
    destruct (decide (s = CLOSED)) as [|Hs']; [done|].
    pose proof (Hs _ _ Hi Hst). pose proof (Hs _ _ Hj Hs'). congruence.
Qed.

Lemma inv_pending_all_closed w t tm :
  channelInv w -> timers w !! t = Some tm -> status tm = Pending ->
  Forall (fun s => s = CLOSED) (sockets w)
  /\ isConnected (hook w) = false
  /\ error (hook w) <> Some terminalError
  /\ Forall (fun tm' => status tm' <> Pending) (<[t := mkTimer (delay tm) Fired]> (timers w)).
Proof.
  intros (_ & _ & Ht & Hc & He & _) Hlk Hp.
  destruct (Ht t tm Hlk Hp) as (Href & _ & Hall).
  split; [done|]. split; [|split].
  - destruct (isConnected (hook w)); [|done].
    destruct Hc as (i & st & _ & Hi & Hst); [done|].
    pose proof (Forall_lookup_1 _ _ _ _ Hall Hi). destruct Hst; congruence.
  - intros Herr. destruct (He Herr) as (_ & _ & Hnp).
    by pose proof (Forall_lookup_1 _ _ _ _ Hnp Hlk).
  - apply Forall_lookup. intros t' tm' Hlk' Hp'.
    destruct (decide (t' = t)) as [->|Hne].
    + rewrite list_lookup_insert_eq in Hlk' by (by eapply lookup_lt_Some).
      by simplify_eq.
    + rewrite list_lookup_insert_ne in Hlk' by done.
      destruct (Ht t' tm' Hlk' Hp') as (Href' & _). congruence.
Qed.

Lemma channelInv_mount url_ok : channelInv (mount url_ok).
Proof.
  destruct url_ok; unfold channelInv; cbn; unfold maxAttempts.
  - split; [lia|]. split; [|split; [|split; [|split]]]; try done.
    intros [|i] st Hi Hst; by simplify_eq/=.
  - split; [lia|]. split; [|split; [|split; [|split]]]; try done.
Qed.

Lemma channelInv_transfer w w' :
  hook w' = hook w -> sockets w' = sockets w -> timers w' = timers w ->
  uncaught w' = uncaught w -> channelInv w -> channelInv w'.
Proof.
  intros Hh Hs Ht Hu. unfold channelInv, quiescent. by rewrite Hh, Hs, Ht, Hu.
Qed.

Lemma channelInv_open w i w' :
  channelInv w -> step (WsOpen i) w = Some w' -> channelInv w'.
Proof.
  intros Hinv Hstep.
  destruct (step_open _ _ _ Hstep) as (Hi & Hs' & Ht' & Hh' & Hu' & _).
  pose proof (inv_alive_no_pending w i CONNECTING Hinv Hi ltac:(done)) as Hnp.
  destruct Hinv as (Ha & Hs & Ht & Hc & He & Hu).
  assert (Href : wsRef (hook w) = Some i) by (by eapply Hs).
  unfold channelInv. rewrite Hh', Hs', Ht', Hu'. cbn. unfold maxAttempts.
  split; [lia|]. split; [|split; [|split; [|split]]]; try done.
  - intros j st Hj Hst. destruct (decide (j = i)) as [->|Hne]; [done|].
    rewrite list_lookup_insert_ne in Hj by done. by eapply Hs.
  - intros t tm Hlk Hp. by pose proof (Forall_lookup_1 _ _ _ _ Hnp Hlk).
  - intros _. exists i, OPEN. split; [done|]. split; [|by left].
    apply list_lookup_insert_eq. by eapply lookup_lt_Some.
Qed.

Lemma channelInv_error w i w' :
  channelInv w -> step (WsError i) w = Some w' -> channelInv w'.
Proof.
  intros Hinv Hstep.
  destruct (step_error _ _ _ Hstep) as (_ & Hs' & Ht' & Hh' & Hu' & _).
  destruct Hinv as (Ha & Hs & Ht & Hc & He & Hu).
  unfold channelInv. rewrite Hh', Hs', Ht', Hu'. cbn.
  split; [done|]. split; [done|]. split; [done|]. split; [done|]. split; [|done].
  intros [=].
Qed.

Lemma channelInv_close w i w' :
  channelInv w -> step (WsClose i) w = Some w' -> channelInv w'.
Proof.
  intros Hinv Hstep.
  destruct (step_close _ _ _ Hstep) as ((st & Hi & Hst) & Hs' & Hu' & _ & Hcase).
  pose proof (inv_alive_no_pending w i st Hinv Hi Hst) as Hnp.
  pose proof (inv_alive_others_closed w i st Hinv Hi Hst) as Hclosed.
  destruct Hinv as (Ha & Hs & Ht & Hc & He & Hu).
  assert (Hnoalive : forall j s, <[i := CLOSED]> (sockets w) !! j = Some s ->
                                 s <> CLOSED -> False).
  { intros j s Hj Hs0. by pose proof (Forall_lookup_1 _ _ _ _ Hclosed Hj). }
  unfold channelInv.
  destruct Hcase as [(Hlt & Ht' & Hh')|(Hge & Ht' & Hh')];
    rewrite Hh', Hs', Ht', Hu'; cbn.
  - split; [done|]. split; [|split; [|split; [|split]]]; try done.
    + intros j s Hj Hs0. by destruct (Hnoalive j s).
    + intros t tm Hlk Hp. apply lookup_snoc_Some in Hlk as [[_ Hlk]|[-> <-]].
      * by pose proof (Forall_lookup_1 _ _ _ _ Hnp Hlk).
      * done.
    + intros Herr. destruct (He Herr) as (_ & Hall & _).
      by pose proof (Forall_lookup_1 _ _ _ _ Hall Hi).
  - split; [done|]. split; [|split; [|split; [|split]]]; try done.
    + intros j s Hj Hs0. by destruct (Hnoalive j s).
    + intros t tm Hlk Hp. by pose proof (Forall_lookup_1 _ _ _ _ Hnp Hlk).
    + intros _. split; [lia|]. unfold quiescent. by rewrite Hs', Ht'.
Qed.

Lemma channelInv_timer w t w' :
  channelInv w -> step (TimerFires t) w = Some w' -> channelInv w'.
Proof.
  intros Hinv Hstep.
  destruct (step_timer _ _ _ Hstep) as (d & Hlk & Ht' & Hu' & _ & Hcase).
  destruct (inv_pending_all_closed w t _ Hinv Hlk eq_refl)
    as (Hclosed & Hdis & Hnterm & Hnp).
  simpl in Hnp.
  destruct Hinv as (Ha & Hs & Ht & Hc & He & Hu).
  destruct (Ht t _ Hlk eq_refl) as (_ & Hlt & _).
  unfold channelInv.
  destruct Hcase as [(Hurl & Hs' & Hh')|(Hurl & Hs' & Hh')];
    rewrite Hh', Hs', Ht', Hu'; cbn; rewrite ?Hdis.
  - split; [lia|]. split; [|split; [|split; [|split]]]; try done.
    + intros j s Hj Hs0. apply lookup_snoc_Some in Hj as [[_ Hj]|[-> _]]; [|done].
      by pose proof (Forall_lookup_1 _ _ _ _ Hclosed Hj).
    + intros t' tm Hlk' Hp. by pose proof (Forall_lookup_1 _ _ _ _ Hnp Hlk').
  - split; [lia|]. split; [done|]. split; [|split; [done|split; [|done]]].
    + intros t' tm Hlk' Hp. by pose proof (Forall_lookup_1 _ _ _ _ Hnp Hlk').
    + intros [=].
Qed.

Lemma step_unmount_cases w w' :
  step Unmount w = Some w' ->
  hook w' = hook w
  /\ uncaught w' = uncaught w
  /\ ((timers w' = timers w
       /\ forall t tm, reconnectTimeoutRef (hook w) = Some t ->
                       timers w !! t = Some tm -> status tm <> Pending)
      \/ (exists t d, reconnectTimeoutRef (hook w) = Some t
                      /\ timers w !! t = Some (mkTimer d Pending)
                      /\ timers w' = <[t := mkTimer d Cleared]> (timers w)))
  /\ ((sockets w' = sockets w
       /\ forall ws st, wsRef (hook w) = Some ws -> sockets w !! ws = Some st ->
                        st = CLOSING \/ st = CLOSED)
      \/ (exists ws st, wsRef (hook w) = Some ws
                        /\ sockets w !! ws = Some st
                        /\ (st = CONNECTING \/ st = OPEN)
                        /\ sockets w' = <[ws := CLOSING]> (sockets w))).
Proof.
  intros Hstep.
  destruct (step_unmount _ _ Hstep) as (Hh & Hu & _ & Ht & Hs).
  split; [done|]. split; [done|]. split.
  - destruct (reconnectTimeoutRef (hook w)) as [t|] eqn:Eref.
    2:{ left. split; [done|]. intros; discriminate. }
    destruct (timers w !! t) as [[d st]|] eqn:E.
    2:{ left. split; [done|]. intros ? ? [= <-] Hlk. congruence. }
    destruct st.
    + right. by exists t, d.
    + left. split; [done|]. intros ? ? [= <-] Hlk. by simplify_eq.
    + left. split; [done|]. intros ? ? [= <-] Hlk. by simplify_eq.
  - destruct (wsRef (hook w)) as [ws|] eqn:Eref.
    2:{ left. split; [done|]. intros; discriminate. }
    destruct (sockets w !! ws) as [st|] eqn:E.
    2:{ left. split; [done|]. intros ? ? [= <-] Hlk. congruence. }
    destruct st.
    + right. exists ws, CONNECTING. auto.
    + right. exists ws, OPEN. auto.
    + left. split; [done|]. intros ? ? [= <-] Hlk. simplify_eq. auto.
    + left. split; [done|]. intros ? ? [= <-] Hlk. simplify_eq. auto.
Qed.

(** After the cleanup no timer is pending and no socket is connecting or
    open, in a world that satisfies the invariant. *)
Lemma unmount_leaves_nothing_live w w' :
  channelInv w -> step Unmount w = Some w' ->
  Forall (fun tm => status tm <> Pending) (timers w')
  /\ Forall (fun st => st = CLOSING \/ st = CLOSED) (sockets w').
Proof.
  intros (Ha & Hs & Ht & Hc & He & Hu) Hstep.
  destruct (step_unmount_cases _ _ Hstep) as (_ & _ & Htc & Hsc). split.
  - apply Forall_lookup. intros t tm Hlk Hp.
    destruct Htc as [[Ht' Hnp]|(t0 & d & Href & Hlk0 & Ht')]; rewrite Ht' in Hlk.
    + destruct (Ht t tm Hlk Hp) as (Href & _). by eapply Hnp.
    + destruct (decide (t = t0)) as [->|Hne].
      * rewrite list_lookup_insert_eq in Hlk by (by eapply lookup_lt_Some).
        by simplify_eq.
      * rewrite list_lookup_insert_ne in Hlk by done.
        destruct (Ht t tm Hlk Hp) as (Href' & _). congruence.
  - apply Forall_lookup. intros j s Hj.
    destruct (decide (s = CLOSED)) as [|Hne]; [by right|].
    destruct Hsc as [[Hs' Hcl]|(ws & st & Href & Hws & Hst & Hs')]; rewrite Hs' in Hj.
    + eapply Hcl; [|exact Hj]. by eapply Hs.
    + destruct (decide (j = ws)) as [->|Hneq].
      * rewrite list_lookup_insert_eq in Hj by (by eapply lookup_lt_Some).
        simplify_eq. by left.
      * rewrite list_lookup_insert_ne in Hj by done.
        pose proof (Hs _ _ Hj Hne). congruence.
Qed.

Lemma channelInv_unmount w w' :
  channelInv w -> step Unmount w = Some w' -> channelInv w'.
Proof.
  intros Hinv Hstep.
  destruct (unmount_leaves_nothing_live _ _ Hinv Hstep) as [Hnp Hcl].
  destruct (step_unmount_cases _ _ Hstep) as (Hh' & Hu' & Htc & Hsc).
  destruct Hinv as (Ha & Hs & Ht & Hc & He & Hu).
  unfold channelInv. rewrite Hh', Hu'.
  split; [done|]. split; [|split; [|split; [|split]]]; try done.
  - intros j s Hj Hne.
    destruct Hsc as [[Hs' _]|(ws & st & Href & Hws & Hst & Hs')]; rewrite Hs' in Hj.
    + by eapply Hs.
    + destruct (decide (j = ws)) as [->|Hneq]; [done|].
      rewrite list_lookup_insert_ne in Hj by done. by eapply Hs.
  - intros t tm Hlk Hp. by pose proof (Forall_lookup_1 _ _ _ _ Hnp Hlk).
  - intros Hcon. destruct (Hc Hcon) as (i & st & Href & Hi & Hst).
    destruct Hsc as [[Hs' _]|(ws & st' & Href' & Hws & Hst' & Hs')]; rewrite Hs'.
    + by exists i, st.
    + assert (ws = i) as -> by congruence.
      exists i, CLOSING. split; [done|]. split; [|by right].
      apply list_lookup_insert_eq. by eapply lookup_lt_Some.
  - intros Herr. destruct (He Herr) as (Hmax & Hq).
    split; [done|].
    unfold step in Hstep. destruct (unmounted w); [done|]. simplify_eq.
    destruct (cleanup_quiescent w Hq) as [Ht' Hs'].
    unfold quiescent. by rewrite Ht', Hs'.
Qed.

Lemma channelInv_step e w w' :
  channelInv w -> step e w = Some w' -> channelInv w'.
Proof.
  intros Hinv Hstep. destruct e as [i|i f|i|i|t|data|data|data|].
  - by eapply channelInv_open.
  - destruct (step_message _ _ _ _ Hstep) as (_ & _ & Hs & Ht & Hh & Hu).
    by eapply channelInv_transfer.
  - by eapply channelInv_error.
  - by eapply channelInv_close.
  - by eapply channelInv_timer.
  - destruct (step_fetch (PositionsFetched data) _ _ I Hstep) as (Hh & Hs & Ht & Hu & _).
    by eapply channelInv_transfer.
  - destruct (step_fetch (TradesFetched data) _ _ I Hstep) as (Hh & Hs & Ht & Hu & _).
    by eapply channelInv_transfer.
  - destruct (step_fetch (PerformanceFetched data) _ _ I Hstep) as (Hh & Hs & Ht & Hu & _).
    by eapply channelInv_transfer.
  - by eapply channelInv_unmount.
Qed.

Lemma reachable_channelInv w : reachable w -> channelInv w.
Proof.
  apply reachable_invariant; [apply channelInv_mount|apply channelInv_step].
Qed.

Lemma onmessage_liveSignals w f :
  liveSignals (app (fst (onmessage f w))) = liveSignals (app w)
  \/ exists s, liveSignals (app (fst (onmessage f w)))
               = bufferInsert 50 s (liveSignals (app w)).
Proof.
  destruct f as [raw|message]; [by left|].
  destruct message as [| | | | | |props]; try by left.
  unfold onmessage, onMessage, try_catch, bind, JSON_parse, ret, countOnMessage, modify.
  destruct (is_str (lookup_prop "type" props) "signal") eqn:H1.
  { apply is_str_true in H1. rewrite (handle_signal _ _ H1). right. by eexists. }
  destruct (is_str (lookup_prop "type" props) "performance") eqn:H2.
  { apply is_str_true in H2. rewrite (handle_performance _ _ H2). by left. }
  destruct (is_str (lookup_prop "type" props) "position_update") eqn:H3.
  { apply is_str_true in H3. rewrite (handle_position_update _ _ H3). by left. }
  rewrite (handle_unknown_tag _ (JObj props) (lookup_prop "type" props)); [by left|done|].
  unfold knownTag. by rewrite H1, H2, H3.
Qed.

Lemma step_liveSignals_bound e w w' :
  (length (liveSignals (app w)) <= 50)%nat -> step e w = Some w' ->
  (length (liveSignals (app w')) <= 50)%nat.
Proof.
  intros Hlen Hstep. destruct e as [i|i f|i|i|t|data|data|data|].
  - destruct (step_open _ _ _ Hstep) as (_ & _ & _ & _ & _ & ->). done.
  - destruct (step_message _ _ _ _ Hstep) as (_ & -> & _).
    destruct (onmessage_liveSignals w f) as [->|[s ->]]; [done|].
    rewrite bufferInsert_length. lia.
  - destruct (step_error _ _ _ Hstep) as (_ & _ & _ & _ & _ & ->). done.
  - destruct (step_close _ _ _ Hstep) as (_ & _ & _ & -> & _). done.
  - destruct (step_timer _ _ _ Hstep) as (d & _ & _ & _ & -> & _). done.
  - destruct (step_fetch (PositionsFetched data) _ _ I Hstep) as (_ & _ & _ & _ & ->). done.
  - destruct (step_fetch (TradesFetched data) _ _ I Hstep) as (_ & _ & _ & _ & ->). done.
  - destruct (step_fetch (PerformanceFetched data) _ _ I Hstep) as (_ & _ & _ & _ & ->).
    done.
  - destruct (step_unmount _ _ Hstep) as (_ & _ & -> & _). done.
Qed.

(** X11. In every world the client can be in, the signal buffer holds at
    most 50 signals. *)
Theorem buffer_never_exceeds_50 w :
  reachable w -> (length (liveSignals (app w)) <= 50)%nat.
Proof.
  apply (reachable_invariant (fun w => (length (liveSignals (app w)) <= 50)%nat)).
  - intros []; simpl; lia.
  - intros e w0 w1. apply step_liveSignals_bound.
Qed.

Lemma buffer_never_exceeds_50_witness :
  (length (liveSignals (app (mount true))) <= 50)%nat.
Proof. apply buffer_never_exceeds_50. by exists true, []. Defined.

(** X15. In every world the client can be in, the attempt counter lies
    between 0 and the ceiling of 10. *)
Theorem attempts_within_ceiling w :
  reachable w -> 0 <= reconnectAttemptsRef (hook w) <= 10.
Proof. intros Hr. by destruct (reachable_channelInv w Hr) as (Ha & _). Qed.

Lemma attempts_within_ceiling_witness :
  0 <= reconnectAttemptsRef (hook (mount true)) <= 10.
Proof. apply attempts_within_ceiling. by exists true, []. Defined.

(** X16. The client holds one connection at a time: two sockets that are
    not closed are the same socket, the one [wsRef] names; two pending
    timers are the same timer, the one [reconnectTimeoutRef] names; and no
    timer is pending while a socket is not closed. *)
Theorem one_connection_at_a_time w :
  reachable w ->
  (forall i j si sj, sockets w !! i = Some si -> sockets w !! j = Some sj ->
     si <> CLOSED -> sj <> CLOSED -> i = j /\ wsRef (hook w) = Some i)
  /\ (forall t t' tm tm', timers w !! t = Some tm -> timers w !! t' = Some tm' ->
     status tm = Pending -> status tm' = Pending ->
     t = t' /\ reconnectTimeoutRef (hook w) = Some t)
  /\ (forall i si t tm, sockets w !! i = Some si -> si <> CLOSED ->
     timers w !! t = Some tm -> status tm <> Pending).
Proof.
  intros Hr. pose proof (reachable_channelInv w Hr) as Hinv.
  pose proof Hinv as (_ & Hs & Ht & _).
  split; [|split].
  - intros i j si sj Hi Hj Hsi Hsj.
    pose proof (Hs _ _ Hi Hsi). pose proof (Hs _ _ Hj Hsj).
    split; [congruence|done].
  - intros t t' tm tm' Hlk Hlk' Hp Hp'.
    destruct (Ht _ _ Hlk Hp) as (? & _). destruct (Ht _ _ Hlk' Hp') as (? & _).
    split; [congruence|done].
  - intros i si t tm Hi Hsi Hlk.
    exact (Forall_lookup_1 _ _ _ _ (inv_alive_no_pending w i si Hinv Hi Hsi) Hlk).
Qed.

Lemma one_connection_at_a_time_witness :
  wsRef (hook (mount true)) = Some 0%nat.
Proof.
  destruct (one_connection_at_a_time (mount true)) as (H & _).
  - by exists true, [].
  - by apply (H 0%nat 0%nat CONNECTING CONNECTING).
Defined.

(** X17. Right after the teardown of the component no timer is pending
    and every socket is closing or closed. *)
Theorem teardown_leaves_nothing_live w w' :
  reachable w -> step Unmount w = Some w' ->
  Forall (fun tm => status tm <> Pending) (timers w')
  /\ Forall (fun st => st = CLOSING \/ st = CLOSED) (sockets w').
Proof.
  intros Hr. apply unmount_leaves_nothing_live. by apply reachable_channelInv.
Qed.

Lemma teardown_leaves_nothing_live_witness :
  Forall (fun st => st = CLOSING \/ st = CLOSED)
         (sockets (with_unmounted true (dispatch cleanup (mount true)))).
Proof.
  apply (teardown_leaves_nothing_live (mount true)).
  - by exists true, [].
  - reflexivity.
Defined.

(** X18. No fault ever leaves a handler of the client: in every world the
    client can be in, nothing was thrown past the event loop. *)
Theorem no_fault_leaves_a_handler w : reachable w -> uncaught w = [].
Proof. intros Hr. by destruct (reachable_channelInv w Hr) as (_ & _ & _ & _ & _ & Hu). Qed.

Lemma no_fault_leaves_a_handler_witness : uncaught (mount false) = [].
Proof. apply no_fault_leaves_a_handler. by exists false, []. Defined.

(** X19. The terminal error is shown only when the attempts are used up
    and the channel is dead: the counter is at the ceiling, the indicator
    says disconnected, every socket is closed, no timer is pending, and
    the platform has no channel event left to deliver. *)
Theorem terminal_error_means_exhausted w :
  reachable w ->
  error (hook w) = Some "Failed to connect after multiple attempts" ->
  reconnectAttemptsRef (hook w) = 10
  /\ isConnected (hook w) = false
  /\ Forall (fun st => st = CLOSED) (sockets w)
  /\ Forall (fun tm => status tm <> Pending) (timers w)
  /\ (forall e, isChannelEvent e = true -> step e w = None).
Proof.
  intros Hr Herr.
  destruct (reachable_channelInv w Hr) as (_ & _ & _ & Hc & He & _).
  destruct (He Herr) as (Hmax & Hq). pose proof Hq as [Hcl Hnp].
  split; [done|]. split; [|split; [done|split; [done|]]].
  - destruct (isConnected (hook w)); [|done].
    destruct Hc as (i & st & _ & Hi & Hst); [done|].
    pose proof (Forall_lookup_1 _ _ _ _ Hcl Hi). destruct Hst; congruence.
  - intros e He'. by apply quiescent_no_channel_event.
Qed.

Lemma exhaustedWorld_reachable : reachable exhaustedWorld.
Proof.
  exists true, (retryTrace 0 0 10 ++ [WsClose 10]). vm_compute. reflexivity.
Qed.

Lemma openWorld_reachable : reachable openWorld.
Proof. exists true, [WsOpen 0]. vm_compute. reflexivity. Qed.

Lemma terminal_error_means_exhausted_witness :
  reconnectAttemptsRef (hook exhaustedWorld) = 10
  /\ isConnected (hook exhaustedWorld) = false.
Proof.
  destruct (terminal_error_means_exhausted exhaustedWorld) as (H1 & H2 & _).
  - exact exhaustedWorld_reachable.
  - reflexivity.
  - by split.
Defined.

(** X21. The indicator says connected only while the socket that [wsRef]
    names is open or closing. *)
Theorem connected_only_with_open_socket w :
  reachable w -> isConnected (hook w) = true ->
  exists i st, wsRef (hook w) = Some i /\ sockets w !! i = Some st
               /\ (st = OPEN \/ st = CLOSING).
Proof.
  intros Hr. by destruct (reachable_channelInv w Hr) as (_ & _ & _ & Hc & _).
Qed.

Lemma connected_only_with_open_socket_witness :
  exists i st, wsRef (hook openWorld) = Some i /\ sockets openWorld !! i = Some st
               /\ (st = OPEN \/ st = CLOSING).
Proof.
  apply (connected_only_with_open_socket openWorld).
  - exact openWorld_reachable.
  - reflexivity.
Defined.

Lemma steady_preserves_attempts e w w' :
  isSteadyEvent e = true -> step e w = Some w' ->
  reconnectAttemptsRef (hook w') = reconnectAttemptsRef (hook w).
Proof.
  intros He Hstep. destruct e as [i|i f|i|i|t|data|data|data|]; try done.
  - destruct (step_message _ _ _ _ Hstep) as (_ & _ & _ & _ & -> & _). done.
  - destruct (step_error _ _ _ Hstep) as (_ & _ & _ & -> & _). done.
  - destruct (step_fetch (PositionsFetched data) _ _ I Hstep) as (-> & _). done.
  - destruct (step_fetch (TradesFetched data) _ _ I Hstep) as (-> & _). done.
  - destruct (step_fetch (PerformanceFetched data) _ _ I Hstep) as (-> & _). done.
Qed.

Lemma steady_run_preserves_attempts es : forall w w',
  Forall (fun e => isSteadyEvent e = true) es -> run es w = Some w' ->
  reconnectAttemptsRef (hook w') = reconnectAttemptsRef (hook w).
Proof.
  induction es as [|e es IH]; intros w w' Hall Hrun; simpl in Hrun.
  - by simplify_eq.
  - destruct (step e w) as [w1|] eqn:E; [|done].
    apply Forall_cons in Hall as [He Hall].
    rewrite (IH _ _ Hall Hrun). by eapply steady_preserves_attempts.
Qed.

(** X20. The backoff starts over after every open: when a socket has
    opened and then, after any frames, errors and completed fetches, a
    socket closes, the reconnect is scheduled after 1000 ms, whatever the
    number of attempts that failed before the open. *)
Theorem backoff_restarts_after_open w i w1 (es : list event) w2 j w3 :
  step (WsOpen i) w = Some w1 ->
  Forall (fun e => isSteadyEvent e = true) es ->
  run es w1 = Some w2 ->
  step (WsClose j) w2 = Some w3 ->
  timers w3 = timers w2 ++ [mkTimer 1000 Pending]
  /\ reconnectTimeoutRef (hook w3) = Some (length (timers w2))
  /\ reconnectAttemptsRef (hook w3) = 0.
Proof.
  intros Hopen Hall Hrun Hclose.
  assert (Ha : reconnectAttemptsRef (hook w2) = 0).
  { rewrite (steady_run_preserves_attempts _ _ _ Hall Hrun).
    by eapply open_resets_attempts. }
  destruct (step_close _ _ _ Hclose) as (_ & _ & _ & _ & Hcase).
  rewrite Ha in Hcase.
  destruct Hcase as [(_ & -> & ->)|(Hge & _)]; [done|].
  unfold maxAttempts in Hge. lia.
Qed.

Lemma backoff_restarts_after_open_witness :
  exists w3,
    step (WsClose 0) openWorld = Some w3
    /\ timers w3 = timers openWorld ++ [mkTimer 1000 Pending].
Proof.
  eexists. split; [vm_compute; reflexivity|].
  eapply (backoff_restarts_after_open (mount true) 0 openWorld [] openWorld 0).
  - vm_compute. reflexivity.
  - constructor.
  - reflexivity.
  - vm_compute. reflexivity.
Defined.




End Reachable.
